(** * Payment-plan calculator (src/src/App.tsx): schedule construction

    A shallow embedding of the numeric core of the [PaymentPlanner]
    component: pricing, normalisation of the extraordinary payments,
    reconciliation of the monthly instalment against the balloon, row
    assembly, totals and date projection.

    Numbers.  The source computes with JavaScript numbers.  Amounts, areas
    and percentages are modelled as exact rationals ([Q]), with
    [Math.ceil]/[Math.floor] as [Qceiling]/[Qfloor]; month numbers and the
    financing horizon are integers ([Z]), as the data model has them.
    Equalities between amounts are stated with [==] on [Q].  Values that are
    not numbers (NaN, infinities) have no counterpart here.

    Strings.  [String(m)] and the numbers in template literals are the
    decimal numerals of [pretty].

    Dates.  A [Date] is kept as its UTC year and month index; the plan start
    enters as the date that [parseMonthStr] returns, and [parseMonthStr]
    itself is modelled on the two numbers read from its string.

    Also modelled: the updaters of the list of extraordinary payments
    ([addExtra], [removeExtra], [updateExtra]), the list of offered prices
    and the seven console self-tests. *)

From Stdlib Require Import ZArith QArith Qround Lqa Lia Sorted.
From stdpp Require Import gmap strings pretty list sorting.

Local Open Scope Z_scope.

(** ** Numeric primitives *)

Definition Qleb (a b : Q) : bool := Qle_bool a b.
Definition Qltb (a b : Q) : bool := negb (Qle_bool b a).

Definition Math_max (a b : Q) : Q := if Qleb a b then b else a.
Definition Math_min (a b : Q) : Q := if Qleb a b then a else b.
Definition Math_ceil (n : Q) : Q := inject_Z (Qceiling n).
Definition Math_floor (n : Q) : Q := inject_Z (Qfloor n).
Definition Math_trunc (n : Q) : Q :=
  if Qleb 0 n then Math_floor n else Math_ceil n.

(** [const clamp = (val, min, max) => Math.max(min, Math.min(max, val))] *)
Definition clamp (val min max : Q) : Q := Math_max min (Math_min max val).

(** The same function at the integer inputs ([months]). *)
Definition clampZ (val min max : Z) : Z := Z.max min (Z.min max val).

(** [roundCeilToMultiple]: the guard [!mult || mult <= 0] is [mult <= 0]
    on rationals. *)
Definition roundCeilToMultiple (n mult : Q) : Q :=
  if Qleb mult 0 then Math_ceil n else (Math_ceil (n / mult) * mult)%Q.

Definition roundFloorToMultiple (n mult : Q) : Q :=
  if Qleb mult 0 then Math_floor n else (Math_floor (n / mult) * mult)%Q.

(** The remainder operator [a % b] of the source language: the result takes
    the sign of the dividend, [a - b * trunc (a / b)]. *)
Definition js_rem (a b : Q) : Q := (a - b * Math_trunc (a / b))%Q.

Definition BASE_PRICE_PER_M2 : Q := inject_Z 365000.

(** ** Data model *)

(** An entry of the [extras] state: [{ id, month, amount }]. *)
Record Extra := mkExtra { ex_id : string; ex_month : Z; ex_amount : Q }.

Inductive RowType := initial | monthly | extra | balloon.

Global Instance RowType_eq_dec : EqDecision RowType.
Proof. solve_decision. Defined.

Record Row := mkRow
  { r_type : RowType; r_label : string; r_month : Z; r_amount : Q }.

(** The component state the schedule depends on. *)
Record PlanInputs := mkInputs
  { area : Q;
    pricePerM2 : Q;
    months : Z;
    balloonPct : Q;
    initialPayment : Q;
    roundingMultiple : Q;
    extras : list Extra }.

(** ** Pricing *)

Definition fullPrice (i : PlanInputs) : Q :=
  (clamp (area i) 1 (inject_Z 1000000) * BASE_PRICE_PER_M2)%Q.

Definition negotiatedPrice (i : PlanInputs) : Q :=
  (clamp (area i) 1 (inject_Z 1000000)
   * clamp (pricePerM2 i) 0 (inject_Z 100000000))%Q.

Definition discountAmount (i : PlanInputs) : Q :=
  Math_max 0 (fullPrice i - negotiatedPrice i)%Q.

Definition netPrice (i : PlanInputs) : Q := negotiatedPrice i.

Definition balloonValue (i : PlanInputs) : Q :=
  (netPrice i * clamp (balloonPct i) 0 (inject_Z 90) / inject_Z 100)%Q.

Definition cappedInitial (i : PlanInputs) : Q :=
  clamp (initialPayment i) 0 (Math_max 0 (netPrice i)).

(** ** Extraordinary payments: filtering and ordering *)

(** [Array.prototype.sort] with a comparator is a stable sort: an element is
    placed before another one exactly when the comparator is negative, or
    when it is zero and the element came first.  Stable insertion computes
    that order. *)
Section ArraySort.
Context {T : Type} (cmp : T -> T -> Z).

Fixpoint sort_insert (x : T) (l : list T) : list T :=
  match l with
  | [] => [x]
  | y :: l' => if cmp x y <=? 0 then x :: y :: l' else y :: sort_insert x l'
  end.

Fixpoint Array_sort (l : list T) : list T :=
  match l with
  | [] => []
  | x :: l' => sort_insert x (Array_sort l')
  end.

End ArraySort.

(** [(e) => e.amount > 0 && e.month >= 1] *)
Definition positive_entry (e : Extra) : bool :=
  Qltb 0 (ex_amount e) && (1 <=? ex_month e).

(** [(a, b) => a.month - b.month] *)
Definition by_month (a b : Extra) : Z := ex_month a - ex_month b.

Definition orderedExtras (i : PlanInputs) : list Extra :=
  let copy := List.filter positive_entry (extras i) in
  Array_sort by_month copy.

(** ** Grouping by key *)

(** [groupByPolyfill]: a plain object used as a map from [String (fn item)]
    to the array of the items with that key, in input order.  The keys are
    decimal numerals, rendered by [pretty]. *)
Definition groupBy_step {T : Type} (fn : T -> Z)
    (acc : gmap string (list T)) (item : T) : gmap string (list T) :=
  let key := pretty (fn item) in
  match acc !! key with
  | None => <[key := [item]]> acc
  | Some l => <[key := l ++ [item]]> acc
  end.

Definition groupByPolyfill {T : Type} (arr : list T) (fn : T -> Z)
    : gmap string (list T) :=
  fold_left (groupBy_step fn) arr ∅.

(** ** Schedule construction *)

(** [const M = clamp(months, 1, 240)] *)
Definition M (i : PlanInputs) : Z := clampZ (months i) 1 240.

(** [(e) => e.amount > 0 && e.month >= 1 && e.month <= M] *)
Definition valid_entry (m : Z) (e : Extra) : bool :=
  Qltb 0 (ex_amount e) && (1 <=? ex_month e) && (ex_month e <=? m).

Definition validExtras (i : PlanInputs) : list Extra :=
  List.filter (valid_entry (M i)) (orderedExtras i).

Definition sum_amounts (l : list Extra) : Q :=
  fold_left (fun s e => (s + ex_amount e)%Q) l 0%Q.

Definition extrasSum (i : PlanInputs) : Q := sum_amounts (validExtras i).

Definition baseForMonthly (i : PlanInputs) : Q :=
  Math_max 0 (netPrice i - cappedInitial i - balloonValue i - extrasSum i)%Q.

Definition numMonthlyPayments (i : PlanInputs) : Z :=
  Z.max 0 (M i - Z.of_nat (length (validExtras i))).

(** The block that sets [monthlyInstallment] and [adjustedBalloon]
    (the source has it inline in [schedule]); the result is the pair of the
    two variables after the block. *)
Definition reconcile (balloon base : Q) (num : Z) (mult : Q) : Q * Q :=
  if 0 <? num then
    let raw := (base / inject_Z num)%Q in
    let candidateUp := roundCeilToMultiple raw mult in
    let totalMonthlyUp := (candidateUp * inject_Z num)%Q in
    let balloonAfterUp := (balloon - (totalMonthlyUp - base))%Q in
    if Qleb 0 balloonAfterUp then (candidateUp, balloonAfterUp)
    else
      let candidateDown := Math_max 0 (roundFloorToMultiple raw mult) in
      let totalMonthlyDown := (candidateDown * inject_Z num)%Q in
      let adjusted := (balloon + (base - totalMonthlyDown))%Q in
      (candidateDown, Math_max 0 adjusted)
  else (0%Q, balloon).

Definition monthlyInstallment (i : PlanInputs) : Q :=
  fst (reconcile (balloonValue i) (baseForMonthly i)
         (numMonthlyPayments i) (roundingMultiple i)).

Definition adjustedBalloon (i : PlanInputs) : Q :=
  snd (reconcile (balloonValue i) (baseForMonthly i)
         (numMonthlyPayments i) (roundingMultiple i)).

Definition extrasByMonth (i : PlanInputs) : gmap string (list Extra) :=
  groupByPolyfill (validExtras i) ex_month.

Definition extra_row (m : Z) (ex : Extra) : Row :=
  mkRow extra ("Extraordinaria (mes " +:+ pretty m +:+ ")") m (ex_amount ex).

Definition monthly_row (m : Z) (inst : Q) : Row :=
  mkRow monthly ("Cuota mensual " +:+ pretty m) m inst.

(** The body of the loop over the months: the rows pushed for month [m]. *)
Definition month_rows (byMonth : gmap string (list Extra)) (inst : Q) (m : Z)
    : list Row :=
  let list := default [] (byMonth !! pretty m) in
  match list with
  | [] => [monthly_row m inst]
  | _ :: _ => List.map (extra_row m) list
  end.

(** [for (let m = 1; m <= M; m++)], each iteration pushing onto [rows]. *)
Definition month_loop (byMonth : gmap string (list Extra)) (inst : Q)
    (m : Z) (rows : list Row) : list Row :=
  fold_left (fun rows m => rows ++ month_rows byMonth inst m) (seqZ 1 m) rows.

Definition schedule (i : PlanInputs) : list Row :=
  let rows := [mkRow initial "Cuota inicial" 0 (cappedInitial i)] in
  let rows := month_loop (extrasByMonth i) (monthlyInstallment i) (M i) rows in
  rows ++ [mkRow balloon "Última cuota (balloon)" (M i + 1) (adjustedBalloon i)].

(** ** Totals *)

Definition has_type (t : RowType) (r : Row) : bool := bool_decide (r_type r = t).

Definition sum_rows (l : list Row) : Q :=
  fold_left (fun s r => (s + r_amount r)%Q) l 0%Q.

Definition find_amount (t : RowType) (l : list Row) : Q :=
  match List.find (has_type t) l with
  | Some r => r_amount r
  | None => 0%Q
  end.

Record Totals := mkTotals
  { monthlyTotal : Q; extrasTotal : Q; t_initial : Q; t_balloon : Q; grand : Q }.

Definition totals (i : PlanInputs) : Totals :=
  let monthlyTotal := sum_rows (List.filter (has_type monthly) (schedule i)) in
  let extrasTotal := sum_rows (List.filter (has_type extra) (schedule i)) in
  let initial := find_amount initial (schedule i) in
  let balloon := find_amount balloon (schedule i) in
  let grand := (initial + monthlyTotal + extrasTotal + balloon)%Q in
  mkTotals monthlyTotal extrasTotal initial balloon grand.

(** ** Dates *)

(** A [Date] on the first day of a calendar month (UTC): the full year and
    the month index, 0 for January. *)
Record Date := mkDate { getUTCFullYear : Z; getUTCMonth : Z }.

Definition month_index (d : Date) : Z := getUTCFullYear d * 12 + getUTCMonth d.

Definition date_of_index (n : Z) : Date := mkDate (n / 12) (n mod 12).

(** [Date.UTC(y, m, 1)]: a year from 0 to 99 means 1900 + year; a month
    index outside 0..11 carries into the year. *)
Definition Date_UTC (y m : Z) : Date :=
  let yy := if (0 <=? y) && (y <=? 99) then 1900 + y else y in
  date_of_index (yy * 12 + m).

(** [d.setUTCMonth(m)] on a first-of-month date. *)
Definition setUTCMonth (d : Date) (m : Z) : Date :=
  date_of_index (getUTCFullYear d * 12 + m).

Definition addMonths (date : Date) (k : Z) : Date :=
  let d := Date_UTC (getUTCFullYear date) (getUTCMonth date) in
  setUTCMonth d (getUTCMonth d + k).

Definition monthNamesEs : list string :=
  ["enero"; "febrero"; "marzo"; "abril"; "mayo"; "junio"; "julio"; "agosto";
   "septiembre"; "octubre"; "noviembre"; "diciembre"].

Definition formatMonthEs (date : Date) : string :=
  let m := default "undefined" (monthNamesEs !! Z.to_nat (getUTCMonth date)) in
  let y := getUTCFullYear date in
  m +:+ " " +:+ pretty y.

Record DatedRow := mkDated { row : Row; date : string }.

(** [scheduleWithDates]; [base] is the date [parseMonthStr startMonth]. *)
Definition scheduleWithDates (i : PlanInputs) (base : Date) : list DatedRow :=
  List.map (fun r =>
              let offset := Z.max 0 (r_month r - 1) in
              let d := formatMonthEs (addMonths base offset) in
              mkDated r d)
           (schedule i).

(** ** The list of extraordinary payments in the component state *)

(** [defaultExtra]: month 12, amount 0; [id] is the result of [safeUUID]. *)
Definition defaultExtra (id : string) : Extra := mkExtra id 12 0%Q.

(** The updater of [addExtra]: [(xs) => [...xs, defaultExtra()]]. *)
Definition addExtra (id : string) (xs : list Extra) : list Extra :=
  xs ++ [defaultExtra id].

(** The updater of [removeExtra]: [(xs) => xs.filter((x) => x.id !== id)]. *)
Definition removeExtra (id : string) (xs : list Extra) : list Extra :=
  List.filter (fun x => negb (String.eqb (ex_id x) id)) xs.

(** A [Partial<{ month; amount }>]: a field that is absent is [None]. *)
Record Patch := mkPatch { p_month : option Z; p_amount : option Q }.

(** [{ ...x, ...patch }] *)
Definition apply_patch (x : Extra) (patch : Patch) : Extra :=
  mkExtra (ex_id x) (default (ex_month x) (p_month patch))
    (default (ex_amount x) (p_amount patch)).

(** The updater of [updateExtra]. *)
Definition updateExtra (id : string) (patch : Patch) (xs : list Extra)
    : list Extra :=
  List.map (fun x => if String.eqb (ex_id x) id then apply_patch x patch else x)
    xs.

(** ** The offered prices *)

(** [for (let v = 365000; v >= 280000; v -= 5000) arr.push(v)]; the loop is
    run with a bound on the number of iterations. *)
Fixpoint options_loop (fuel : nat) (v : Z) (arr : list Z) : list Z :=
  match fuel with
  | O => arr
  | S fuel' =>
      if 280000 <=? v then options_loop fuel' (v - 5000) (arr ++ [v]) else arr
  end.

Definition pricePerM2Options : list Z := options_loop 100 365000 [].

(** ** The console self-tests *)

Definition Math_abs (x : Q) : Q := if Qleb 0 x then x else (- x)%Q.

(** [===] on numbers. *)
Definition js_eq (a b : Q) : bool := Qeq_bool a b.


(** [new Set(orderedExtras.map((e) => e.month))] *)
Definition monthsWithExtra (i : PlanInputs) : gset Z :=
  list_to_set (List.map ex_month (orderedExtras i)).

Definition clash (i : PlanInputs) : bool :=
  existsb (fun r => has_type monthly r
                    && bool_decide (r_month r ∈ monthsWithExtra i))
    (schedule i).

(** Test 2: no monthly row in a month with an extraordinary payment. *)
Definition ok2 (i : PlanInputs) : bool := negb (clash i).

Definition mPays (i : PlanInputs) : list Q :=
  List.map r_amount (List.filter (has_type monthly) (schedule i)).

(** Test 3: the monthly amounts are all equal.  [mPays[0]] is read only
    inside the callback, that is, when the array has an element. *)
Definition ok3 (i : PlanInputs) : bool :=
  (length (mPays i) <=? 1)%nat
  || forallb (fun v => js_eq v (List.nth 0 (mPays i) 0%Q)) (mPays i).

(** Test 4: with rounding, the monthly amounts are multiples of it. *)
Definition ok4 (i : PlanInputs) : bool :=
  js_eq (roundingMultiple i) 0
  || forallb (fun r => js_eq (js_rem (r_amount r) (roundingMultiple i)) 0)
       (List.filter (has_type monthly) (schedule i)).

(** Test 5: the price comes from the selector. *)
Definition ok5 (i : PlanInputs) : bool :=
  existsb (fun v => js_eq (inject_Z v) (pricePerM2 i)) pricePerM2Options.

(** Test 6: the full price is the area times the base price. *)
Definition ok6 (i : PlanInputs) : bool :=
  js_eq (fullPrice i) (area i * BASE_PRICE_PER_M2)%Q.

(** Test 7: the discount is the full price minus the negotiated one. *)
Definition ok7 (i : PlanInputs) : bool :=
  Qleb (Math_abs (discountAmount i
                  - Math_max 0 (fullPrice i - area i * pricePerM2 i))%Q) 1.

(** ** Parsing the plan start *)


(** ** Vocabulary of the statements *)

(** Ascending order of the months. *)
Definition month_le (a b : Extra) : Prop := ex_month a <= ex_month b.

Definition in_month (m : Z) (e : Extra) : bool := ex_month e =? m.

(** The entries of the input that ask for a payment in month [m]: positive
    amount, month [m].  For [1 <= m <= M] these are the valid entries of
    that month, in input order. *)
Definition entries_for (i : PlanInputs) (m : Z) : list Extra :=
  List.filter (fun e => Qltb 0 (ex_amount e) && (ex_month e =? m)) (extras i).

(** The rows of the schedule that carry month number [m]. *)
Definition rows_of_month (i : PlanInputs) (m : Z) : list Row :=
  List.filter (fun r => r_month r =? m) (schedule i).

(** The same inputs with another list of extraordinary payments. *)
Definition with_extras (i : PlanInputs) (xs : list Extra) : PlanInputs :=
  mkInputs (area i) (pricePerM2 i) (months i) (balloonPct i)
    (initialPayment i) (roundingMultiple i) xs.

(** The number of entries of the input that are valid for the plan:
    positive amount and month within [1, M].  Entries are counted, not
    months. *)
Definition count_valid (i : PlanInputs) : Z :=
  Z.of_nat (length (List.filter (valid_entry (M i)) (extras i))).

(** [x] is an integer multiple of the unit [u]. *)
Definition is_multiple (u x : Q) : Prop := exists k : Z, (x == inject_Z k * u)%Q.

(** [up] is [raw] rounded up to the nearest multiple of [u]: the least
    multiple that is not below [raw]. *)
Definition rounded_up (u raw up : Q) : Prop :=
  is_multiple u up /\ (raw <= up)%Q
  /\ forall v, is_multiple u v -> (raw <= v)%Q -> (up <= v)%Q.

(** [down] is [raw] rounded down to the nearest multiple of [u]: the
    greatest multiple that is not above [raw]. *)
Definition rounded_down (u raw down : Q) : Prop :=
  is_multiple u down /\ (down <= raw)%Q
  /\ forall v, is_multiple u v -> (v <= raw)%Q -> (v <= down)%Q.

(** The unit of rounding: the granularity when it is positive, the currency
    unit otherwise. *)
Definition rounding_unit (g : Q) : Q := if Qltb 0 g then g else 1%Q.

(** The entries kept by the consumption-time filter: month at most [M]. *)
Definition within_horizon (i : PlanInputs) (e : Extra) : bool :=
  ex_month e <=? M i.

(** The dates that [Date.UTC] returns for the plan start: a month index
    from 0 to 11 and a year outside 0..99 (a two-digit year is read as
    1900 + year before the date is built). *)
Definition anchor_ok (base : Date) : Prop :=
  (getUTCFullYear base < 0 \/ 99 < getUTCFullYear base)
  /\ 0 <= getUTCMonth base < 12.

(** The balloon row carries the same date as the monthly row of the last
    financing month. *)
Definition balloon_with_last_month (i : PlanInputs) (base : Date) : Prop :=
  forall b l,
    In b (scheduleWithDates i base) -> r_type (row b) = balloon ->
    In l (scheduleWithDates i base) -> r_type (row l) = monthly ->
    r_month (row l) = M i ->
    date b = date l.

(** Date projection with the balloon dated in the month of the last regular
    instalment. *)
Definition date_projection_with_last_month (i : PlanInputs) (base : Date)
    : Prop :=
  (forall d, In d (scheduleWithDates i base) ->
     date d = formatMonthEs (addMonths base (Z.max 0 (r_month (row d) - 1))))
  /\ balloon_with_last_month i base.

(** A row with the date that [scheduleWithDates] attaches to it. *)
Definition dated (base : Date) (r : Row) : DatedRow :=
  mkDated r (formatMonthEs (addMonths base (Z.max 0 (r_month r - 1)))).







(** ** Sample inputs *)

(** Scenario A with the initial payment raised to the whole net price. *)
Definition overcommitted : PlanInputs :=
  mkInputs (inject_Z 500) (inject_Z 350000) 36 (inject_Z 25)
    (inject_Z 175000000) 0%Q [].

(** January 2025. *)
Definition january_2025 : Date := mkDate 2025 0.

(** Scenario A: 500 m2 at 350,000 per m2 (net price 175,000,000), initial
    payment 20,000,000, balloon 25 %, 36 months, no extraordinary payment,
    no rounding. *)
Definition scenarioA : PlanInputs :=
  mkInputs (inject_Z 500) (inject_Z 350000) 36 (inject_Z 25)
    (inject_Z 20000000) 0%Q [].

(** Scenario B: scenario A with instalments rounded to 50,000. *)
Definition scenarioB : PlanInputs :=
  mkInputs (inject_Z 500) (inject_Z 350000) 36 (inject_Z 25)
    (inject_Z 20000000) (inject_Z 50000) [].

(** Three months, three valid entries on two months (one month is entered
    twice), and entries that the filters drop. *)
Definition crowded : PlanInputs :=
  mkInputs (inject_Z 500) (inject_Z 350000) 3 (inject_Z 25)
    (inject_Z 20000000) 0%Q
    [mkExtra "a" 2 (inject_Z 10000000); mkExtra "b" 1 (inject_Z 5000000);
     mkExtra "c" 2 (inject_Z 7000000); mkExtra "d" 9 (inject_Z 7000000);
     mkExtra "e" 0 (inject_Z 7000000); mkExtra "f" 1 0%Q].

(** * Properties *)

(** ** Comparisons, maximum and rounding on rationals *)

Lemma Qleb_true (a b : Q) : Qleb a b = true <-> (a <= b)%Q.
Proof. apply Qle_bool_iff. Qed.

Lemma Qleb_false (a b : Q) : Qleb a b = false <-> (b < a)%Q.
Proof.
  unfold Qleb. split; intros H.
  - apply Qnot_le_lt. intros Hle. apply Qle_bool_iff in Hle. congruence.
  - destruct (Qle_bool a b) eqn:E; [|reflexivity].
    apply Qle_bool_iff in E. lra.
Qed.

Lemma Qltb_true (a b : Q) : Qltb a b = true <-> (a < b)%Q.
Proof.
  unfold Qltb. rewrite negb_true_iff. apply (Qleb_false b a).
Qed.

Lemma Math_max_case (a b : Q) :
  ((a <= b)%Q /\ Math_max a b = b) \/ ((b < a)%Q /\ Math_max a b = a).
Proof.
  unfold Math_max. destruct (Qleb a b) eqn:E.
  - left. split; [by apply Qleb_true|done].
  - right. split; [by apply Qleb_false|done].
Qed.

Lemma Math_min_case (a b : Q) :
  ((a <= b)%Q /\ Math_min a b = a) \/ ((b < a)%Q /\ Math_min a b = b).
Proof.
  unfold Math_min. destruct (Qleb a b) eqn:E.
  - left. split; [by apply Qleb_true|done].
  - right. split; [by apply Qleb_false|done].
Qed.

Ltac max_cases :=
  repeat match goal with
    | |- context [Math_max ?a ?b] =>
        let H := fresh "Hmax" in
        destruct (Math_max_case a b) as [[? H]|[? H]]; rewrite !H in *
    | |- context [Math_min ?a ?b] =>
        let H := fresh "Hmin" in
        destruct (Math_min_case a b) as [[? H]|[? H]]; rewrite !H in *
    end.

Lemma Math_max_nonneg (x : Q) : (0 <= Math_max 0 x)%Q.
Proof. max_cases; lra. Qed.

Lemma clamp_lower (v lo hi : Q) : (lo <= clamp v lo hi)%Q.
Proof. unfold clamp. max_cases; lra. Qed.

Lemma Math_ceil_nonneg (x : Q) : (0 <= x)%Q -> (0 <= Math_ceil x)%Q.
Proof.
  intros Hx. unfold Math_ceil.
  change 0%Q with (inject_Z 0). rewrite <- Zle_Qle.
  change 0 with (Qceiling 0). by apply Qceiling_resp_le.
Qed.

Lemma Math_floor_nonneg (x : Q) : (0 <= x)%Q -> (0 <= Math_floor x)%Q.
Proof.
  intros Hx. unfold Math_floor.
  change 0%Q with (inject_Z 0). rewrite <- Zle_Qle.
  change 0 with (Qfloor 0). by apply Qfloor_resp_le.
Qed.

Lemma Qdiv_nonneg (a b : Q) : (0 <= a)%Q -> (0 < b)%Q -> (0 <= a / b)%Q.
Proof.
  intros Ha Hb. apply Qle_shift_div_l; [done|]. lra.
Qed.

Lemma roundCeilToMultiple_nonneg (n mult : Q) :
  (0 <= n)%Q -> (0 <= roundCeilToMultiple n mult)%Q.
Proof.
  intros Hn. unfold roundCeilToMultiple. destruct (Qleb mult 0) eqn:E.
  - by apply Math_ceil_nonneg.
  - apply Qleb_false in E. apply Qmult_le_0_compat; [|lra].
    apply Math_ceil_nonneg. by apply Qdiv_nonneg.
Qed.

(** ** Pricing is non-negative *)

Lemma netPrice_nonneg (i : PlanInputs) : (0 <= netPrice i)%Q.
Proof.
  unfold netPrice, negotiatedPrice. apply Qmult_le_0_compat.
  - pose proof (clamp_lower (area i) 1 (inject_Z 1000000)). lra.
  - apply clamp_lower.
Qed.

Lemma balloonValue_nonneg (i : PlanInputs) : (0 <= balloonValue i)%Q.
Proof.
  unfold balloonValue. apply Qdiv_nonneg; [|reflexivity].
  apply Qmult_le_0_compat; [apply netPrice_nonneg|apply clamp_lower].
Qed.

Lemma cappedInitial_nonneg (i : PlanInputs) : (0 <= cappedInitial i)%Q.
Proof. apply clamp_lower. Qed.

Lemma baseForMonthly_nonneg (i : PlanInputs) : (0 <= baseForMonthly i)%Q.
Proof. apply Math_max_nonneg. Qed.

(** ** Reconciliation never returns a negative amount *)

Lemma inject_Z_pos (n : Z) : 0 < n -> (0 < inject_Z n)%Q.
Proof. intros H. change 0%Q with (inject_Z 0). by rewrite <- Zlt_Qlt. Qed.

Lemma reconcile_nonneg (balloon base : Q) (num : Z) (mult : Q) :
  (0 <= balloon)%Q -> (0 <= base)%Q ->
  (0 <= fst (reconcile balloon base num mult))%Q
  /\ (0 <= snd (reconcile balloon base num mult))%Q.
Proof.
  intros Hb Hbase. unfold reconcile.
  destruct (0 <? num) eqn:En; [|simpl; split; lra].
  apply Z.ltb_lt in En.
  match goal with |- context [Qleb 0 ?x] => destruct (Qleb 0 x) eqn:E end; simpl.
  - split; [|by apply Qleb_true in E].
    apply roundCeilToMultiple_nonneg, Qdiv_nonneg; [done|by apply inject_Z_pos].
  - split; apply Math_max_nonneg.
Qed.

(** ** The sort: a stable, sorted permutation *)

Lemma sort_insert_perm {T} (cmp : T -> T -> Z) x l :
  sort_insert cmp x l ≡ₚ x :: l.
Proof.
  induction l as [|y l IH]; simpl; [done|].
  destruct (cmp x y <=? 0); [done|].
  rewrite IH. apply Permutation_swap.
Qed.

Lemma Array_sort_perm {T} (cmp : T -> T -> Z) l : Array_sort cmp l ≡ₚ l.
Proof.
  induction l as [|x l IH]; simpl; [done|].
  by rewrite sort_insert_perm, IH.
Qed.

Lemma sort_insert_sorted x l :
  StronglySorted month_le l -> StronglySorted month_le (sort_insert by_month x l).
Proof.
  induction 1 as [|y l Hs IH Hall]; simpl.
  - repeat constructor.
  - destruct (by_month x y <=? 0) eqn:E.
    + apply Z.leb_le in E. unfold by_month in E.
      constructor; [by constructor|].
      constructor; [unfold month_le; lia|].
      eapply Forall_impl; [exact Hall|]. unfold month_le. intros; lia.
    + apply Z.leb_gt in E. unfold by_month in E.
      constructor; [done|].
      rewrite sort_insert_perm. constructor; [unfold month_le; lia|done].
Qed.

Lemma Array_sort_sorted l : StronglySorted month_le (Array_sort by_month l).
Proof.
  induction l; simpl; [constructor|by apply sort_insert_sorted].
Qed.

(** Stability: the entries of one month keep their input order. *)
Lemma sort_insert_in_month m x l :
  List.filter (in_month m) (sort_insert by_month x l)
  = if in_month m x then x :: List.filter (in_month m) l
    else List.filter (in_month m) l.
Proof.
  induction l as [|y l IH]; simpl; [done|].
  destruct (by_month x y <=? 0) eqn:E; simpl; [done|].
  rewrite IH. apply Z.leb_gt in E. unfold by_month in E. unfold in_month.
  destruct (ex_month x =? m) eqn:Ex; [|done].
  destruct (ex_month y =? m) eqn:Ey; [|done]. lia.
Qed.

Lemma Array_sort_in_month m l :
  List.filter (in_month m) (Array_sort by_month l) = List.filter (in_month m) l.
Proof.
  induction l as [|x l IH]; simpl; [done|].
  by rewrite sort_insert_in_month, IH.
Qed.

(** ** Filters *)

Lemma filter_filter {T} (p q : T -> bool) l :
  List.filter p (List.filter q l) = List.filter (fun x => q x && p x) l.
Proof.
  induction l as [|x l IH]; simpl; [done|].
  destruct (q x); simpl; [|done]. destruct (p x); by rewrite IH.
Qed.

Lemma filter_all {T} (p : T -> bool) l :
  (forall x, In x l -> p x = true) -> List.filter p l = l.
Proof.
  induction l as [|x l IH]; simpl; intros H; [done|].
  rewrite (H x) by auto. f_equal. apply IH. auto.
Qed.

Lemma filter_none {T} (p : T -> bool) l :
  (forall x, In x l -> p x = false) -> List.filter p l = [].
Proof.
  induction l as [|x l IH]; simpl; intros H; [done|].
  rewrite (H x) by auto. apply IH. auto.
Qed.

Lemma filter_perm {T} (p : T -> bool) l1 l2 :
  l1 ≡ₚ l2 -> List.filter p l1 ≡ₚ List.filter p l2.
Proof.
  induction 1 as [|x l1 l2 _ IH|x y l|l1 l2 l3 _ IH1 _ IH2]; simpl.
  - done.
  - destruct (p x); by rewrite IH.
  - destruct (p x), (p y); try done. apply Permutation_swap.
  - by rewrite IH1.
Qed.

Lemma filter_comm {T} (p q : T -> bool) l :
  List.filter p (List.filter q l) = List.filter q (List.filter p l).
Proof.
  rewrite !filter_filter. apply List.filter_ext. intros x. apply andb_comm.
Qed.

(** ** Grouping *)

Lemma groupBy_step_lookup {T} (fn : T -> Z) acc item k :
  default [] (groupBy_step fn acc item !! k)
  = default [] (acc !! k)
    ++ (if bool_decide (pretty (fn item) = k) then [item] else []).
Proof.
  unfold groupBy_step. case_bool_decide as Hk.
  - subst k. destruct (acc !! pretty (fn item)) eqn:E;
      by rewrite lookup_insert_eq.
  - rewrite app_nil_r.
    destruct (acc !! pretty (fn item)); by rewrite lookup_insert_ne.
Qed.

Lemma groupBy_fold_lookup {T} (fn : T -> Z) arr acc k :
  default [] (fold_left (groupBy_step fn) arr acc !! k)
  = default [] (acc !! k)
    ++ List.filter (fun x => bool_decide (pretty (fn x) = k)) arr.
Proof.
  revert acc. induction arr as [|x arr IH]; intros acc; simpl.
  - by rewrite app_nil_r.
  - rewrite IH, groupBy_step_lookup, <- app_assoc. f_equal.
    by destruct (bool_decide _).
Qed.

(** Looking up [String(m)] yields the items of key [m], in input order;
    a missing key reads as the empty array. *)
Lemma groupByPolyfill_lookup {T} (fn : T -> Z) arr (m : Z) :
  default [] (groupByPolyfill arr fn !! pretty m)
  = List.filter (fun x => fn x =? m) arr.
Proof.
  unfold groupByPolyfill. rewrite groupBy_fold_lookup, lookup_empty. simpl.
  apply List.filter_ext. intros x.
  destruct (Z.eqb_spec (fn x) m) as [->|Hne].
  - by rewrite bool_decide_eq_true_2.
  - rewrite bool_decide_eq_false_2; [done|].
    intros Heq. by apply (inj pretty) in Heq.
Qed.

(** ** Shape of the schedule *)

Lemma fold_left_push {A B} (f : A -> list B) l rows :
  fold_left (fun rows m => rows ++ f m) l rows = rows ++ flat_map f l.
Proof.
  revert rows. induction l as [|m l IH]; intros rows; simpl.
  - by rewrite app_nil_r.
  - by rewrite IH, <- app_assoc.
Qed.

Lemma schedule_shape (i : PlanInputs) :
  schedule i
  = mkRow initial "Cuota inicial" 0 (cappedInitial i)
    :: flat_map (month_rows (extrasByMonth i) (monthlyInstallment i))
         (seqZ 1 (M i))
    ++ [mkRow balloon "Última cuota (balloon)" (M i + 1) (adjustedBalloon i)].
Proof. unfold schedule, month_loop. by rewrite fold_left_push. Qed.

Lemma M_range (i : PlanInputs) : 1 <= M i <= 240.
Proof. unfold M, clampZ. lia. Qed.

(** The valid entries of month [m] are the input entries of that month. *)
Lemma validExtras_in_month (i : PlanInputs) (m : Z) :
  1 <= m <= M i ->
  List.filter (in_month m) (validExtras i) = entries_for i m.
Proof.
  intros Hm. unfold validExtras, orderedExtras, entries_for.
  rewrite filter_comm, Array_sort_in_month, !filter_filter.
  apply List.filter_ext. intros e. unfold positive_entry, valid_entry, in_month.
  destruct (Qltb 0 (ex_amount e)); simpl; [|done].
  destruct (Z.eqb_spec (ex_month e) m) as [->|];
    destruct (Z.leb_spec 1 (ex_month e)), (Z.leb_spec (ex_month e) (M i));
    simpl; try done; try lia.
Qed.

(** What one iteration of the loop pushes, in terms of the input entries. *)
Lemma month_rows_spec (i : PlanInputs) (inst : Q) (m : Z) :
  1 <= m <= M i ->
  month_rows (extrasByMonth i) inst m
  = match entries_for i m with
    | [] => [monthly_row m inst]
    | _ :: _ => List.map (extra_row m) (entries_for i m)
    end.
Proof.
  intros Hm. unfold month_rows, extrasByMonth.
  rewrite groupByPolyfill_lookup.
  change (fun x : Extra => ex_month x =? m) with (in_month m).
  by rewrite validExtras_in_month.
Qed.

Lemma month_rows_month byMonth inst k r :
  In r (month_rows byMonth inst k) -> r_month r = k.
Proof.
  unfold month_rows. destruct (default [] (byMonth !! pretty k)) as [|e l].
  - intros [<-|[]]. done.
  - intros Hin. apply in_map_iff in Hin as (x & <- & _). done.
Qed.

Section RowsByMonth.
Context (f : Z -> list Row).
Hypothesis f_month : forall k r, In r (f k) -> r_month r = k.

Lemma filter_month_other m k :
  k <> m -> List.filter (fun r => r_month r =? m) (f k) = [].
Proof.
  intros Hne. apply filter_none. intros r Hr.
  apply f_month in Hr. apply Z.eqb_neq. congruence.
Qed.

Lemma filter_month_same m : List.filter (fun r => r_month r =? m) (f m) = f m.
Proof.
  apply filter_all. intros r Hr. apply f_month in Hr. by apply Z.eqb_eq.
Qed.

Lemma filter_month_flat_map_out m ms :
  ~ In m ms -> List.filter (fun r => r_month r =? m) (flat_map f ms) = [].
Proof.
  induction ms as [|k ms IH]; simpl; intros Hnin; [done|].
  rewrite List.filter_app, filter_month_other, IH; [done|tauto|].
  intros ->. tauto.
Qed.

Lemma filter_month_flat_map m ms :
  List.NoDup ms -> In m ms ->
  List.filter (fun r => r_month r =? m) (flat_map f ms) = f m.
Proof.
  induction 1 as [|k ms Hk Hnd IH]; simpl; [done|].
  rewrite List.filter_app. intros [->|Hin].
  - rewrite filter_month_same, filter_month_flat_map_out by done.
    by rewrite app_nil_r.
  - rewrite filter_month_other, IH; [done..|].
    intros ->. tauto.
Qed.

End RowsByMonth.

Lemma In_seqZ (k m n : Z) : In k (seqZ m n) <-> m <= k < m + n.
Proof. rewrite <- list_elem_of_In. apply elem_of_seqZ. Qed.

(** The rows that carry month number [m], for a month of the plan. *)
Lemma rows_of_month_spec (i : PlanInputs) (m : Z) :
  1 <= m <= M i ->
  rows_of_month i m
  = match entries_for i m with
    | [] => [monthly_row m (monthlyInstallment i)]
    | _ :: _ => List.map (extra_row m) (entries_for i m)
    end.
Proof.
  intros Hm. unfold rows_of_month. rewrite schedule_shape.
  cbn [List.filter r_month].
  assert ((0 =? m) = false) as -> by (apply Z.eqb_neq; lia).
  rewrite List.filter_app. cbn [List.filter r_month].
  assert ((M i + 1 =? m) = false) as -> by (apply Z.eqb_neq; lia).
  rewrite app_nil_r, filter_month_flat_map.
  - by apply month_rows_spec.
  - intros k r. apply month_rows_month.
  - apply NoDup_ListNoDup, NoDup_seqZ.
  - apply In_seqZ. lia.
Qed.

(** ** Valid entries, counted on the input *)

Lemma valid_entry_positive m e : valid_entry m e = true -> positive_entry e = true.
Proof.
  unfold valid_entry, positive_entry. rewrite !andb_true_iff. tauto.
Qed.

Lemma validExtras_perm (i : PlanInputs) :
  validExtras i ≡ₚ List.filter (valid_entry (M i)) (extras i).
Proof.
  unfold validExtras, orderedExtras.
  rewrite (filter_perm _ _ _ (Array_sort_perm by_month _)), filter_filter.
  erewrite List.filter_ext; [done|].
  intros e. simpl. destruct (valid_entry (M i) e) eqn:E.
  - by rewrite (valid_entry_positive _ _ E).
  - apply andb_false_r.
Qed.

Lemma validExtras_length (i : PlanInputs) :
  Z.of_nat (length (validExtras i)) = count_valid i.
Proof. unfold count_valid. by rewrite validExtras_perm. Qed.

Lemma numMonthlyPayments_count (i : PlanInputs) :
  numMonthlyPayments i = Z.max 0 (M i - count_valid i).
Proof. unfold numMonthlyPayments. by rewrite validExtras_length. Qed.

Lemma monthlyInstallment_nonneg (i : PlanInputs) : (0 <= monthlyInstallment i)%Q.
Proof.
  apply reconcile_nonneg; [apply balloonValue_nonneg|apply baseForMonthly_nonneg].
Qed.

Lemma adjustedBalloon_nonneg (i : PlanInputs) : (0 <= adjustedBalloon i)%Q.
Proof.
  apply reconcile_nonneg; [apply balloonValue_nonneg|apply baseForMonthly_nonneg].
Qed.

Lemma entries_for_positive (i : PlanInputs) m e :
  In e (entries_for i m) -> (0 < ex_amount e)%Q /\ ex_month e = m /\ In e (extras i).
Proof.
  unfold entries_for. rewrite filter_In, andb_true_iff, Qltb_true, Z.eqb_eq. tauto.
Qed.

(** Every row pushed in the loop, with its origin. *)
Lemma In_schedule (i : PlanInputs) (r : Row) :
  In r (schedule i) <->
  r = mkRow initial "Cuota inicial" 0 (cappedInitial i)
  \/ (exists m, 1 <= m <= M i /\ entries_for i m = []
                /\ r = monthly_row m (monthlyInstallment i))
  \/ (exists m e, 1 <= m <= M i /\ In e (entries_for i m) /\ r = extra_row m e)
  \/ r = mkRow balloon "Última cuota (balloon)" (M i + 1) (adjustedBalloon i).
Proof.
  rewrite schedule_shape. simpl. rewrite in_app_iff, in_flat_map. simpl.
  split.
  - intros [<-|[(m & Hm & Hr)|[<-|[]]]]; [by left| |by do 3 right].
    apply In_seqZ in Hm. rewrite month_rows_spec in Hr by lia.
    destruct (entries_for i m) as [|e l] eqn:E.
    + destruct Hr as [<-|[]]. right; left. exists m. split; [lia|done].
    + apply in_map_iff in Hr as (x & <- & Hx).
      right; right; left. exists m, x. rewrite E. split; [lia|done].
  - intros [->|[(m & Hm & E & ->)|[(m & e & Hm & He & ->)| ->]]];
      [by left| | |by right; right; left].
    + right; left. exists m. split; [apply In_seqZ; lia|].
      rewrite month_rows_spec, E by done. by left.
    + right; left. exists m. split; [apply In_seqZ; lia|].
      rewrite month_rows_spec by done.
      destruct (entries_for i m) as [|e0 l] eqn:E; [done|].
      apply in_map. done.
Qed.

(** ** Non-negativity, exclusivity and the monthly slots *)

(** C4 (non-negativity): for every input, no row of the schedule has a
    negative amount, and the adjusted balloon is at least 0, whichever
    branch the reconciliation takes. *)
Theorem C4_non_negativity (i : PlanInputs) :
  (forall r, In r (schedule i) -> (0 <= r_amount r)%Q)
  /\ (0 <= adjustedBalloon i)%Q.
Proof.
  split; [|apply adjustedBalloon_nonneg].
  intros r Hr. apply In_schedule in Hr.
  destruct Hr as [->|[(m & _ & _ & ->)|[(m & e & _ & He & ->)| ->]]]; simpl.
  - apply cappedInitial_nonneg.
  - apply monthlyInstallment_nonneg.
  - apply entries_for_positive in He. lra.
  - apply adjustedBalloon_nonneg.
Qed.

(** C5 (exclusivity): for a month [m] of the plan, [1 <= m <= M], with at
    least one valid extraordinary entry, the rows of month [m] are one
    "extra" row per entry of that month, in input order, and none of them is
    a "monthly" row; for a month with no valid entry the rows of month [m]
    are exactly one "monthly" row, of the monthly instalment. *)
Theorem C5_exclusivity (i : PlanInputs) (m : Z) :
  1 <= m <= M i ->
  (entries_for i m <> [] ->
     rows_of_month i m = List.map (extra_row m) (entries_for i m)
     /\ List.filter (has_type monthly) (rows_of_month i m) = [])
  /\ (entries_for i m = [] ->
        rows_of_month i m = [monthly_row m (monthlyInstallment i)]).
Proof.
  intros Hm. rewrite rows_of_month_spec by done.
  destruct (entries_for i m) as [|e l]; split; try done.
  intros _. split; [done|].
  apply filter_none. intros r Hr. by apply in_map_iff in Hr as (x & <- & _).
Qed.

Lemma C5_exclusivity_witness :
  rows_of_month crowded 2
  = [extra_row 2 (mkExtra "a" 2 (inject_Z 10000000));
     extra_row 2 (mkExtra "c" 2 (inject_Z 7000000))]
  /\ rows_of_month crowded 3 = [monthly_row 3 (monthlyInstallment crowded)].
Proof.
  split.
  - apply (C5_exclusivity crowded 2); [by vm_compute|by vm_compute].
  - apply (C5_exclusivity crowded 3); [by vm_compute|by vm_compute].
Defined.

(** C6 (count of monthly slots): [numMonthlyPayments] is
    [max 0 (M - number of valid entries)], where entries are counted, not
    months: two more valid entries on one and the same month lower the
    count by two. *)
Theorem C6_numMonthlyPayments (i : PlanInputs) :
  numMonthlyPayments i = Z.max 0 (M i - count_valid i)
  /\ forall e1 e2,
       valid_entry (M i) e1 = true -> valid_entry (M i) e2 = true ->
       ex_month e1 = ex_month e2 ->
       numMonthlyPayments (with_extras i (e1 :: e2 :: extras i))
       = Z.max 0 (M i - count_valid i - 2).
Proof.
  split; [apply numMonthlyPayments_count|].
  intros e1 e2 H1 H2 _. rewrite numMonthlyPayments_count.
  unfold count_valid. change (M (with_extras i _)) with (M i). simpl.
  rewrite H1, H2. simpl. f_equal. lia.
Qed.

Lemma C6_numMonthlyPayments_witness :
  numMonthlyPayments scenarioA = 36
  /\ numMonthlyPayments
       (with_extras scenarioA
          [mkExtra "x" 5 (inject_Z 1000000); mkExtra "y" 5 (inject_Z 2000000)])
     = 34.
Proof.
  split.
  - apply (proj1 (C6_numMonthlyPayments scenarioA)).
  - apply (proj2 (C6_numMonthlyPayments scenarioA)
             (mkExtra "x" 5 (inject_Z 1000000))
             (mkExtra "y" 5 (inject_Z 2000000))); reflexivity.
Defined.

(** C10 (no monthly slot left): when the number of valid extraordinary
    entries is at least the clamped number of months [M], the monthly
    instalment is 0 and the adjusted balloon is the balloon target
    unchanged; a month [1 <= m <= M] with no valid entry still gets its
    "monthly" row, and the amount of that row is exactly 0. *)
Theorem C10_no_monthly_slot (i : PlanInputs) :
  M i <= count_valid i ->
  monthlyInstallment i = 0%Q
  /\ adjustedBalloon i = balloonValue i
  /\ forall m, 1 <= m <= M i -> entries_for i m = [] ->
       rows_of_month i m = [monthly_row m 0%Q].
Proof.
  intros Hc.
  assert (numMonthlyPayments i = 0) as Hn
    by (rewrite numMonthlyPayments_count; lia).
  assert (monthlyInstallment i = 0%Q) as Hinst
    by (unfold monthlyInstallment, reconcile; by rewrite Hn).
  split; [done|]. split.
  - unfold adjustedBalloon, reconcile. by rewrite Hn.
  - intros m Hm He. rewrite rows_of_month_spec, He by done. by rewrite Hinst.
Qed.

Lemma C10_no_monthly_slot_witness :
  monthlyInstallment crowded = 0%Q
  /\ adjustedBalloon crowded = balloonValue crowded
  /\ rows_of_month crowded 3 = [monthly_row 3 0%Q].
Proof.
  assert (M crowded <= count_valid crowded) as H by (by vm_compute).
  destruct (C10_no_monthly_slot crowded H) as (H1 & H2 & H3).
  split; [exact H1|]. split; [exact H2|].
  apply H3; by vm_compute.
Defined.

(** ** Normalisation of the extraordinary payments *)

Lemma In_orderedExtras (i : PlanInputs) (e : Extra) :
  In e (orderedExtras i)
  <-> In e (extras i) /\ (0 < ex_amount e)%Q /\ 1 <= ex_month e.
Proof.
  unfold orderedExtras. rewrite <- !list_elem_of_In.
  rewrite (Array_sort_perm by_month). rewrite !list_elem_of_In.
  rewrite filter_In. unfold positive_entry.
  rewrite andb_true_iff, Qltb_true, Z.leb_le. tauto.
Qed.

Lemma validExtras_within (i : PlanInputs) :
  validExtras i = List.filter (within_horizon i) (orderedExtras i).
Proof.
  unfold validExtras. apply List.filter_ext_in. intros e He.
  apply In_orderedExtras in He as (_ & Ha & Hm).
  unfold valid_entry, within_horizon.
  apply Qltb_true in Ha as ->. by apply Z.leb_le in Hm as ->.
Qed.

(** C9 (normalisation): [orderedExtras] keeps exactly the entries with a
    positive amount and a month of at least 1 (with their multiplicity), in
    ascending order of the month, the entries of one month staying in input
    order; the entries consumed by the schedule are those of them whose
    month is at most the clamped [M], and both the sum [extrasSum] and the
    count in [numMonthlyPayments] are taken over these. *)
Theorem C9_normalization (i : PlanInputs) :
  orderedExtras i ≡ₚ List.filter positive_entry (extras i)
  /\ (forall e, In e (orderedExtras i)
                <-> In e (extras i) /\ (0 < ex_amount e)%Q /\ 1 <= ex_month e)
  /\ StronglySorted month_le (orderedExtras i)
  /\ (forall m, List.filter (in_month m) (orderedExtras i)
                = List.filter (in_month m)
                    (List.filter positive_entry (extras i)))
  /\ validExtras i = List.filter (within_horizon i) (orderedExtras i)
  /\ extrasSum i
     = sum_amounts (List.filter (within_horizon i) (orderedExtras i))
  /\ numMonthlyPayments i
     = Z.max 0 (M i - Z.of_nat (length (List.filter (within_horizon i)
                                          (orderedExtras i)))).
Proof.
  split; [apply Array_sort_perm|].
  split; [apply In_orderedExtras|].
  split; [apply Array_sort_sorted|].
  split; [intros m; apply Array_sort_in_month|].
  split; [apply validExtras_within|].
  unfold extrasSum, numMonthlyPayments. by rewrite validExtras_within.
Qed.

(** ** Multiples of the rounding granularity *)

Lemma reconcile_multiple (balloon base : Q) (num : Z) (mult : Q) :
  (0 < mult)%Q -> is_multiple mult (fst (reconcile balloon base num mult)).
Proof.
  intros Hm. unfold reconcile.
  assert (Qleb mult 0 = false) as Hg by (by apply Qleb_false).
  destruct (0 <? num); simpl; [|exists 0; unfold inject_Z; lra].
  match goal with |- context [Qleb 0 ?x] => destruct (Qleb 0 x) end; simpl.
  - unfold roundCeilToMultiple. rewrite Hg. by eexists.
  - unfold roundFloorToMultiple. rewrite Hg.
    max_cases; [by eexists|exists 0; unfold inject_Z; lra].
Qed.

Lemma Math_trunc_integer (x : Q) (k : Z) :
  (x == inject_Z k)%Q -> Math_trunc x = inject_Z k.
Proof.
  intros E. unfold Math_trunc, Math_floor, Math_ceil.
  destruct (Qleb 0 x).
  - by rewrite (Qfloor_comp _ _ E), Qfloor_Z.
  - by rewrite (Qceiling_comp _ _ E), Qceiling_Z.
Qed.

Lemma js_rem_multiple (a g : Q) :
  (0 < g)%Q -> is_multiple g a -> (js_rem a g == 0)%Q.
Proof.
  intros Hg [k Hk]. unfold js_rem.
  rewrite (Math_trunc_integer (a / g) k).
  - rewrite Hk. ring.
  - rewrite Hk. field. lra.
Qed.

(** C3 (rounding conformance): when the rounding granularity is positive,
    the amount of every "monthly" row of the schedule is an integer multiple
    of it, and its remainder by the granularity is 0, in the round-up and
    in the round-down branch alike. *)
Theorem C3_rounding_conformance (i : PlanInputs) :
  (0 < roundingMultiple i)%Q ->
  forall r, In r (schedule i) -> r_type r = monthly ->
    is_multiple (roundingMultiple i) (r_amount r)
    /\ (js_rem (r_amount r) (roundingMultiple i) == 0)%Q.
Proof.
  intros Hg r Hr Ht.
  assert (is_multiple (roundingMultiple i) (r_amount r)) as Hmul.
  { apply In_schedule in Hr.
    destruct Hr as [->|[(m & _ & _ & ->)|[(m & e & _ & _ & ->)| ->]]];
      try discriminate Ht.
    simpl. by apply reconcile_multiple. }
  split; [done|]. by apply js_rem_multiple.
Qed.

Lemma C3_rounding_conformance_witness :
  (js_rem (r_amount (monthly_row 1 (monthlyInstallment scenarioB)))
     (roundingMultiple scenarioB) == 0)%Q.
Proof.
  apply (C3_rounding_conformance scenarioB).
  - reflexivity.
  - vm_compute. right. left. reflexivity.
  - reflexivity.
Defined.

(** ** Rounding to a multiple is rounding to the nearest multiple *)

Lemma ceil_rounded_up (u raw : Q) :
  (0 < u)%Q -> rounded_up u raw (Math_ceil (raw / u) * u)%Q.
Proof.
  intros Hu. unfold Math_ceil. split; [by eexists|]. split.
  - assert (raw == raw / u * u)%Q as E by (field; lra).
    rewrite E at 1. apply Qmult_le_compat_r; [apply Qle_ceiling|lra].
  - intros v [k Hk] Hv. rewrite Hk. apply Qmult_le_compat_r; [|lra].
    rewrite <- Zle_Qle, <- (Qceiling_Z k). apply Qceiling_resp_le.
    apply Qle_shift_div_r; [done|]. by rewrite <- Hk.
Qed.

Lemma floor_rounded_down (u raw : Q) :
  (0 < u)%Q -> rounded_down u raw (Math_floor (raw / u) * u)%Q.
Proof.
  intros Hu. unfold Math_floor. split; [by eexists|]. split.
  - assert (raw == raw / u * u)%Q as E by (field; lra).
    rewrite E at 2. apply Qmult_le_compat_r; [apply Qfloor_le|lra].
  - intros v [k Hk] Hv. rewrite Hk. apply Qmult_le_compat_r; [|lra].
    rewrite <- Zle_Qle, <- (Qfloor_Z k). apply Qfloor_resp_le.
    apply Qle_shift_div_l; [done|]. by rewrite <- Hk.
Qed.

Lemma ceil_rounded_up_unit (raw : Q) : rounded_up 1 raw (Math_ceil raw).
Proof.
  unfold Math_ceil. split; [exists (Qceiling raw); ring|]. split.
  - apply Qle_ceiling.
  - intros v [k Hk] Hv. rewrite Hk, Qmult_1_r.
    rewrite <- Zle_Qle, <- (Qceiling_Z k). apply Qceiling_resp_le.
    by rewrite <- (Qmult_1_r (inject_Z k)), <- Hk.
Qed.

Lemma floor_rounded_down_unit (raw : Q) : rounded_down 1 raw (Math_floor raw).
Proof.
  unfold Math_floor. split; [exists (Qfloor raw); ring|]. split.
  - apply Qfloor_le.
  - intros v [k Hk] Hv. rewrite Hk, Qmult_1_r.
    rewrite <- Zle_Qle, <- (Qfloor_Z k). apply Qfloor_resp_le.
    by rewrite <- (Qmult_1_r (inject_Z k)), <- Hk.
Qed.

Lemma roundCeilToMultiple_rounded_up (raw g : Q) :
  rounded_up (rounding_unit g) raw (roundCeilToMultiple raw g).
Proof.
  unfold rounding_unit, roundCeilToMultiple, Qltb, Qleb.
  destruct (Qle_bool g 0) eqn:E; simpl.
  - apply ceil_rounded_up_unit.
  - apply ceil_rounded_up. by apply (Qleb_false g 0).
Qed.

Lemma roundFloorToMultiple_rounded_down (raw g : Q) :
  rounded_down (rounding_unit g) raw (roundFloorToMultiple raw g).
Proof.
  unfold rounding_unit, roundFloorToMultiple, Qltb, Qleb.
  destruct (Qle_bool g 0) eqn:E; simpl.
  - apply floor_rounded_down_unit.
  - apply floor_rounded_down. by apply (Qleb_false g 0).
Qed.

(** C2 (reconciliation tie-break): when there is at least one monthly slot,
    let [raw] be [baseForMonthly / numMonthlyPayments] and [up] be [raw]
    rounded up to the nearest multiple of the rounding granularity (to the
    currency unit when the granularity is 0), and let [after] be the balloon
    target shrunk by the surplus [up * numMonthlyPayments - baseForMonthly].
    The round-up branch is taken exactly when [0 <= after], and then the
    instalment is [up] and the adjusted balloon is [after]; otherwise, with
    [down] being [raw] rounded down to the nearest multiple, the instalment
    is [max 0 down] and the adjusted balloon is
    [max 0 (balloon target + shortfall)], the shortfall being
    [baseForMonthly - max 0 down * numMonthlyPayments]. *)
Theorem C2_reconciliation (i : PlanInputs) :
  0 < numMonthlyPayments i ->
  let u := rounding_unit (roundingMultiple i) in
  let num := inject_Z (numMonthlyPayments i) in
  let raw := (baseForMonthly i / num)%Q in
  exists up,
    rounded_up u raw up
    /\ let after := (balloonValue i - (up * num - baseForMonthly i))%Q in
       ((0 <= after)%Q ->
          (monthlyInstallment i == up)%Q /\ (adjustedBalloon i == after)%Q)
       /\ ((after < 0)%Q ->
             exists down,
               rounded_down u raw down
               /\ (monthlyInstallment i == Math_max 0 down)%Q
               /\ (adjustedBalloon i
                   == Math_max 0 (balloonValue i
                                  + (baseForMonthly i - Math_max 0 down * num)))%Q).
Proof.
  intros Hn u num raw.
  exists (roundCeilToMultiple raw (roundingMultiple i)).
  split; [apply roundCeilToMultiple_rounded_up|].
  unfold monthlyInstallment, adjustedBalloon, reconcile.
  apply Z.ltb_lt in Hn as ->. fold num raw.
  cbv zeta. split.
  - intros Hafter. apply Qleb_true in Hafter as ->. by simpl.
  - intros Hafter. apply Qleb_false in Hafter as ->.
    exists (roundFloorToMultiple raw (roundingMultiple i)).
    split; [apply roundFloorToMultiple_rounded_down|]. by simpl.
Qed.

Lemma C2_reconciliation_witness :
  exists up,
    rounded_up (rounding_unit (roundingMultiple scenarioA))
      (baseForMonthly scenarioA / inject_Z (numMonthlyPayments scenarioA)) up
    /\ (monthlyInstallment scenarioA == up)%Q.
Proof.
  assert (0 < numMonthlyPayments scenarioA) as Hn by reflexivity.
  destruct (C2_reconciliation scenarioA Hn) as (up & Hup & Hbranch & _).
  exists up. split; [exact Hup|].
  destruct Hup as (_ & _ & Hleast).
  apply Hbranch.
  assert (up <= inject_Z 3090278)%Q as Hle.
  { apply Hleast; [exists 3090278; reflexivity|]. by vm_compute. }
  assert (balloonValue scenarioA == inject_Z 43750000)%Q as -> by reflexivity.
  assert (baseForMonthly scenarioA == inject_Z 111250000)%Q as -> by reflexivity.
  change (numMonthlyPayments scenarioA) with 36.
  unfold inject_Z in *. lra.
Defined.

(** ** The two branches of the reconciliation *)

Lemma reconcile_up (balloon base : Q) (num : Z) (mult : Q) :
  0 < num ->
  let up := roundCeilToMultiple (base / inject_Z num) mult in
  (0 <= balloon - (up * inject_Z num - base))%Q ->
  reconcile balloon base num mult
  = (up, (balloon - (up * inject_Z num - base))%Q).
Proof.
  intros Hn up Hafter. unfold reconcile.
  apply Z.ltb_lt in Hn as ->. cbv zeta. fold up.
  by apply Qleb_true in Hafter as ->.
Qed.

Lemma reconcile_down (balloon base : Q) (num : Z) (mult : Q) :
  0 < num ->
  let up := roundCeilToMultiple (base / inject_Z num) mult in
  let down := Math_max 0 (roundFloorToMultiple (base / inject_Z num) mult) in
  (balloon - (up * inject_Z num - base) < 0)%Q ->
  reconcile balloon base num mult
  = (down, Math_max 0 (balloon + (base - down * inject_Z num))%Q).
Proof.
  intros Hn up down Hafter. unfold reconcile.
  apply Z.ltb_lt in Hn as ->. cbv zeta. fold up.
  by apply Qleb_false in Hafter as ->.
Qed.


(** ** Sums of rows *)

Lemma fold_sum_rows (l : list Row) (s : Q) :
  (fold_left (fun s r => s + r_amount r) l s == s + sum_rows l)%Q.
Proof.
  unfold sum_rows. revert s. induction l as [|r l IH]; intros s; simpl.
  - ring.
  - rewrite IH, (IH (0 + r_amount r)%Q). ring.
Qed.

Lemma sum_rows_cons (r : Row) (l : list Row) :
  (sum_rows (r :: l) == r_amount r + sum_rows l)%Q.
Proof.
  unfold sum_rows at 1. simpl. rewrite fold_sum_rows. ring.
Qed.


Lemma sum_rows_monthly (inst : Q) (ms : list Z) :
  (sum_rows (List.map (fun m => monthly_row m inst) ms)
   == inject_Z (Z.of_nat (length ms)) * inst)%Q.
Proof.
  induction ms as [|m ms IH].
  - simpl. unfold sum_rows. simpl. ring.
  - cbn [List.map length]. rewrite sum_rows_cons, IH. simpl r_amount.
    rewrite Nat2Z.inj_succ. unfold Z.succ. rewrite inject_Z_plus. ring.
Qed.

(** ** A plan without valid extraordinary entries *)

Lemma flat_map_single {A B} (g : A -> B) (f : A -> list B) l :
  (forall x, In x l -> f x = [g x]) -> flat_map f l = List.map g l.
Proof.
  induction l as [|x l IH]; simpl; intros H; [done|].
  rewrite (H x), IH by auto. done.
Qed.

Lemma schedule_no_extras (i : PlanInputs) :
  validExtras i = [] ->
  schedule i
  = mkRow initial "Cuota inicial" 0 (cappedInitial i)
    :: List.map (fun m => monthly_row m (monthlyInstallment i)) (seqZ 1 (M i))
    ++ [mkRow balloon "Última cuota (balloon)" (M i + 1) (adjustedBalloon i)].
Proof.
  intros HV. rewrite schedule_shape. do 2 f_equal.
  apply flat_map_single. intros m _.
  unfold month_rows, extrasByMonth, groupByPolyfill. rewrite HV. simpl.
  by rewrite lookup_empty.
Qed.

Lemma monthlyTotal_no_extras (i : PlanInputs) :
  validExtras i = [] ->
  (monthlyTotal (totals i) == inject_Z (M i) * monthlyInstallment i)%Q.
Proof.
  intros HV. unfold totals. cbn [monthlyTotal].
  rewrite schedule_no_extras by done.
  cbn [List.filter]. rewrite List.filter_app. cbn [List.filter].
  change (has_type monthly (mkRow initial _ _ _)) with false.
  change (has_type monthly (mkRow balloon _ _ _)) with false.
  rewrite app_nil_r, filter_all.
  - rewrite sum_rows_monthly, length_seqZ.
    pose proof (M_range i). by rewrite Z2Nat.id by lia.
  - intros r Hr. apply in_map_iff in Hr as (m & <- & _). done.
Qed.

(** C7 (scenario A): with a net price of 175,000,000, a capped initial
    payment of 20,000,000, a balloon target of 43,750,000, 36 months, no
    valid extraordinary entry and rounding granularity 0, the base for the
    monthly instalments is 111,250,000, the monthly instalment is 3,090,278,
    the "monthly" rows total 111,250,008 and the adjusted balloon is
    43,749,992. *)
Theorem C7_scenario_A (i : PlanInputs) :
  (netPrice i == inject_Z 175000000)%Q ->
  (cappedInitial i == inject_Z 20000000)%Q ->
  (balloonValue i == inject_Z 43750000)%Q ->
  months i = 36 ->
  validExtras i = [] ->
  (roundingMultiple i == 0)%Q ->
  (baseForMonthly i == inject_Z 111250000)%Q
  /\ (monthlyInstallment i == inject_Z 3090278)%Q
  /\ (monthlyTotal (totals i) == inject_Z 111250008)%Q
  /\ (adjustedBalloon i == inject_Z 43749992)%Q.
Proof.
  intros HN HC HB Hmonths HV HG.
  assert (M i = 36) as HM by (unfold M; by rewrite Hmonths).
  assert (baseForMonthly i == inject_Z 111250000)%Q as Hbase.
  { unfold baseForMonthly, extrasSum. rewrite HV.
    unfold sum_amounts, inject_Z in *. simpl. max_cases; lra. }
  assert (numMonthlyPayments i = 36) as Hnum.
  { unfold numMonthlyPayments. by rewrite HV, HM. }
  assert (roundCeilToMultiple (baseForMonthly i / inject_Z 36)
            (roundingMultiple i) = inject_Z 3090278) as Hup.
  { unfold roundCeilToMultiple.
    assert (Qleb (roundingMultiple i) 0 = true) as ->
      by (apply Qleb_true; lra).
    unfold Math_ceil. f_equal.
    rewrite (Qceiling_comp _ (inject_Z 111250000 / inject_Z 36));
      [by vm_compute|by rewrite Hbase]. }
  pose proof (reconcile_up (balloonValue i) (baseForMonthly i) 36
                (roundingMultiple i) eq_refl) as Hrec.
  cbv zeta in Hrec. rewrite Hup in Hrec.
  assert (monthlyInstallment i = inject_Z 3090278) as Hinst.
  { unfold monthlyInstallment. rewrite Hnum, Hrec; [done|].
    rewrite HB, Hbase. by vm_compute. }
  split; [done|]. split; [by rewrite Hinst|]. split.
  - rewrite monthlyTotal_no_extras, HM, Hinst by done. reflexivity.
  - unfold adjustedBalloon. rewrite Hnum, Hrec.
    + cbn [snd]. rewrite HB, Hbase. reflexivity.
    + rewrite HB, Hbase. by vm_compute.
Qed.

Lemma C7_scenario_A_witness :
  (baseForMonthly scenarioA == inject_Z 111250000)%Q
  /\ (monthlyInstallment scenarioA == inject_Z 3090278)%Q
  /\ (monthlyTotal (totals scenarioA) == inject_Z 111250008)%Q
  /\ (adjustedBalloon scenarioA == inject_Z 43749992)%Q.
Proof.
  apply (C7_scenario_A scenarioA); reflexivity.
Defined.

(** ** Dates: adding months *)

Lemma month_index_date_of_index (n : Z) : month_index (date_of_index n) = n.
Proof.
  unfold month_index, date_of_index. simpl.
  pose proof (Z.div_mod n 12). lia.
Qed.

Lemma date_of_index_month (n : Z) : 0 <= getUTCMonth (date_of_index n) < 12.
Proof. simpl. apply Z.mod_pos_bound. lia. Qed.

Lemma date_of_index_month_index (d : Date) :
  0 <= getUTCMonth d < 12 -> date_of_index (month_index d) = d.
Proof.
  intros Hm. destruct d as [y m]. unfold month_index, date_of_index.
  simpl in *. f_equal.
  - symmetry. apply (Z.div_unique _ _ y m); lia.
  - symmetry. apply (Z.mod_unique _ _ y m); lia.
Qed.

Lemma Date_UTC_anchor (base : Date) :
  anchor_ok base -> Date_UTC (getUTCFullYear base) (getUTCMonth base) = base.
Proof.
  intros [Hy Hm]. unfold Date_UTC.
  assert ((0 <=? getUTCFullYear base) && (getUTCFullYear base <=? 99) = false)
    as -> by (apply andb_false_iff; rewrite Z.leb_gt, Z.leb_gt; lia).
  by apply date_of_index_month_index.
Qed.

Lemma addMonths_index (base : Date) (k : Z) :
  anchor_ok base -> month_index (addMonths base k) = month_index base + k.
Proof.
  intros Hok. unfold addMonths. cbv zeta. rewrite Date_UTC_anchor by done.
  unfold setUTCMonth. rewrite month_index_date_of_index.
  unfold month_index. lia.
Qed.

Lemma addMonths_month (base : Date) (k : Z) :
  0 <= getUTCMonth (addMonths base k) < 12.
Proof. apply date_of_index_month. Qed.

Lemma addMonths_0 (base : Date) : anchor_ok base -> addMonths base 0 = base.
Proof.
  intros Hok. unfold addMonths. cbv zeta. rewrite Date_UTC_anchor by done.
  unfold setUTCMonth. rewrite Z.add_0_r.
  apply date_of_index_month_index, Hok.
Qed.

(** The label of a month determines the month. *)
Lemma formatMonthEs_inj (d1 d2 : Date) :
  0 <= getUTCMonth d1 < 12 -> 0 <= getUTCMonth d2 < 12 ->
  formatMonthEs d1 = formatMonthEs d2 -> d1 = d2.
Proof.
  destruct d1 as [y1 m1], d2 as [y2 m2]. unfold formatMonthEs. simpl.
  intros H1 H2.
  assert (exists n1, m1 = Z.of_nat n1 /\ (n1 < 12)%nat) as (n1 & -> & Hn1)
    by (exists (Z.to_nat m1); lia).
  assert (exists n2, m2 = Z.of_nat n2 /\ (n2 < 12)%nat) as (n2 & -> & Hn2)
    by (exists (Z.to_nat m2); lia).
  rewrite !Nat2Z.id.
  do 12 (try destruct n1 as [|n1]); try lia;
    do 12 (try destruct n2 as [|n2]); try lia;
    simpl; intros Heq; try discriminate Heq;
    injection Heq as Heq; change (pretty y1 = pretty y2) in Heq;
    apply (inj pretty) in Heq; by subst.
Qed.

(** ** Date projection *)

Lemma scheduleWithDates_dated (i : PlanInputs) (base : Date) :
  scheduleWithDates i base = List.map (dated base) (schedule i).
Proof. reflexivity. Qed.

Lemma In_scheduleWithDates (i : PlanInputs) (base : Date) (d : DatedRow) :
  In d (scheduleWithDates i base)
  <-> exists r, In r (schedule i) /\ d = dated base r.
Proof.
  rewrite scheduleWithDates_dated, in_map_iff. split.
  - intros (r & <- & Hr). by exists r.
  - intros (r & Hr & ->). by exists r.
Qed.

Lemma row_types_months (i : PlanInputs) (r : Row) :
  In r (schedule i) ->
  (r_type r = initial -> r_month r = 0)
  /\ (r_type r = balloon -> r_month r = M i + 1).
Proof.
  intros Hr. apply In_schedule in Hr.
  destruct Hr as [->|[(m & _ & _ & ->)|[(m & e & _ & _ & ->)| ->]]];
    by split.
Qed.

(** C8, as amended (date projection): every row is dated at the plan-start
    anchor plus [max 0 (month - 1)] months.  The initial row (month 0) is
    dated at the anchor itself, a row of month [m >= 1] at the anchor plus
    [m - 1] months, and the balloon row, of month [M + 1], at the anchor
    plus [M] months: that is the calendar month after the one of the rows
    of the last financing month [M], which are dated at the anchor plus
    [M - 1] months, so that the two labels differ. *)
Theorem C8_date_projection (i : PlanInputs) (base : Date) :
  anchor_ok base ->
  List.map row (scheduleWithDates i base) = schedule i
  /\ (forall d, In d (scheduleWithDates i base) ->
        date d
        = formatMonthEs (addMonths base (Z.max 0 (r_month (row d) - 1))))
  /\ (forall k, month_index (addMonths base k) = month_index base + k)
  /\ (forall d, In d (scheduleWithDates i base) -> r_type (row d) = initial ->
        date d = formatMonthEs base)
  /\ (forall d, In d (scheduleWithDates i base) -> 1 <= r_month (row d) ->
        date d = formatMonthEs (addMonths base (r_month (row d) - 1)))
  /\ (forall b, In b (scheduleWithDates i base) -> r_type (row b) = balloon ->
        date b = formatMonthEs (addMonths base (M i)))
  /\ (forall b l,
        In b (scheduleWithDates i base) -> r_type (row b) = balloon ->
        In l (scheduleWithDates i base) -> r_month (row l) = M i ->
        date l = formatMonthEs (addMonths base (M i - 1))
        /\ month_index (addMonths base (M i))
           = month_index (addMonths base (M i - 1)) + 1
        /\ date b <> date l).
Proof.
  intros Hok.
  assert (forall b, In b (scheduleWithDates i base) ->
            r_type (row b) = balloon ->
            date b = formatMonthEs (addMonths base (M i))) as Hballoon.
  { intros b Hb Ht. apply In_scheduleWithDates in Hb as (r & Hr & ->).
    simpl in *. apply row_types_months in Hr as [_ Hr].
    rewrite (Hr Ht). do 2 f_equal. pose proof (M_range i). lia. }
  assert (forall l, In l (scheduleWithDates i base) ->
            r_month (row l) = M i ->
            date l = formatMonthEs (addMonths base (M i - 1))) as Hlast.
  { intros l Hl Hm. apply In_scheduleWithDates in Hl as (r & Hr & ->).
    simpl in *. rewrite Hm. do 2 f_equal. pose proof (M_range i). lia. }
  split.
  { rewrite scheduleWithDates_dated, List.map_map. apply List.map_id. }
  split.
  { intros d Hd. by apply In_scheduleWithDates in Hd as (r & Hr & ->). }
  split; [intros k; by apply addMonths_index|].
  split.
  { intros d Hd Ht. apply In_scheduleWithDates in Hd as (r & Hr & ->).
    simpl in *. apply row_types_months in Hr as [Hr _].
    rewrite (Hr Ht). simpl. by rewrite addMonths_0. }
  split.
  { intros d Hd Hm. apply In_scheduleWithDates in Hd as (r & Hr & ->).
    simpl in *. do 2 f_equal. lia. }
  split; [exact Hballoon|].
  intros b l Hb Ht Hl Hm. split; [by apply Hlast|]. split.
  - rewrite !addMonths_index by done. lia.
  - rewrite (Hballoon b Hb Ht), (Hlast l Hl Hm). intros Heq.
    apply formatMonthEs_inj in Heq; [|apply addMonths_month..].
    apply (f_equal month_index) in Heq.
    rewrite !addMonths_index in Heq by done. lia.
Qed.

Lemma C8_date_projection_witness :
  date (dated january_2025
          (mkRow initial "Cuota inicial" 0 (cappedInitial scenarioA)))
  = formatMonthEs january_2025.
Proof.
  assert (anchor_ok january_2025) as Hok
    by (unfold anchor_ok; simpl; lia).
  destruct (C8_date_projection scenarioA january_2025 Hok)
    as (_ & _ & _ & Hinit & _).
  apply Hinit; [|reflexivity].
  apply In_scheduleWithDates. eexists. split; [|reflexivity].
  apply In_schedule. by left.
Defined.

(** C8, as stated: on scenario A with the plan starting in January 2025
    the balloon row is dated "enero 2028" and the row of month 36
    "diciembre 2027", not the same calendar month. *)
Lemma C8_balloon_not_with_last_month :
  ~ date_projection_with_last_month scenarioA january_2025.
Proof.
  intros [_ H].
  specialize (H (dated january_2025
                   (mkRow balloon "Última cuota (balloon)" (M scenarioA + 1)
                      (adjustedBalloon scenarioA)))
                (dated january_2025
                   (monthly_row 36 (monthlyInstallment scenarioA)))).
  assert (date (dated january_2025
                   (mkRow balloon "Última cuota (balloon)" (M scenarioA + 1)
                      (adjustedBalloon scenarioA)))
          = date (dated january_2025
                   (monthly_row 36 (monthlyInstallment scenarioA)))) as Heq.
  { apply H; try reflexivity.
    - apply In_scheduleWithDates. eexists. split; [|reflexivity].
      apply In_schedule. by do 3 right.
    - apply In_scheduleWithDates. eexists. split; [|reflexivity].
      apply In_schedule. right; left. exists 36. by vm_compute. }
  vm_compute in Heq. discriminate Heq.
Qed.

(** ** Conservation of the total *)

(** C1, evaluated: on scenario A with the initial payment raised to the net
    price (175,000,000; balloon 25 %, 36 months, no extraordinary payment)
    the rows add up to 218,750,000, which is 43,750,000 above the net
    price: the base for the monthly instalments is cut at 0 and the balloon
    target stays on top of the initial payment. *)
Theorem C1_conservation_overcommitted :
  (netPrice overcommitted == inject_Z 175000000)%Q
  /\ (cappedInitial overcommitted == inject_Z 175000000)%Q
  /\ (monthlyTotal (totals overcommitted) == 0)%Q
  /\ (extrasTotal (totals overcommitted) == 0)%Q
  /\ (adjustedBalloon overcommitted == inject_Z 43750000)%Q
  /\ (grand (totals overcommitted) == inject_Z 218750000)%Q
  /\ (1 < grand (totals overcommitted) - netPrice overcommitted)%Q.
Proof. by vm_compute. Qed.

(** *** The parts of the total *)










(** *** Sums over the months *)










(** *** Months with and without entries *)







(** * Further properties of the code *)

(** ** Clamping and rounding *)

(** [clamp] never returns less than its lower bound; with ordered bounds
    the result lies between them and a value already between them is
    returned as it is; with the bounds the wrong way round the lower bound
    is returned. *)
Theorem clamp_bounds (v lo hi : Q) :
  (lo <= clamp v lo hi)%Q
  /\ ((lo <= hi)%Q ->
        (clamp v lo hi <= hi)%Q
        /\ ((lo <= v)%Q -> (v <= hi)%Q -> (clamp v lo hi == v)%Q)
        /\ ((v < lo)%Q -> clamp v lo hi = lo)
        /\ ((hi < v)%Q -> clamp v lo hi = hi))
  /\ ((hi < lo)%Q -> clamp v lo hi = lo).
Proof.
  unfold clamp.
  destruct (Math_min_case hi v) as [[? ->]|[? ->]];
    [destruct (Math_max_case lo hi) as [[? ->]|[? ->]]
    |destruct (Math_max_case lo v) as [[? ->]|[? ->]]];
    repeat split; intros; try lra; try done; exfalso; lra.
Qed.

Lemma clamp_bounds_witness :
  (clamp (inject_Z 300) 0 (inject_Z 90) <= inject_Z 90)%Q
  /\ clamp (inject_Z 5) (inject_Z 10) (inject_Z 1) = inject_Z 10.
Proof.
  split.
  - apply (clamp_bounds (inject_Z 300) 0 (inject_Z 90)). by vm_compute.
  - apply (clamp_bounds (inject_Z 5) (inject_Z 10) (inject_Z 1)). reflexivity.
Defined.

Lemma rounding_unit_pos (g : Q) : (0 < rounding_unit g)%Q.
Proof.
  unfold rounding_unit. destruct (Qltb 0 g) eqn:E; [by apply Qltb_true|lra].
Qed.

Lemma ceil_gap (u n : Q) :
  (0 < u)%Q -> (Math_ceil (n / u) * u - n < u)%Q.
Proof.
  intros Hu. unfold Math_ceil.
  pose proof (Qceiling_lt (n / u)) as H.
  unfold Z.sub in H. rewrite inject_Z_plus, inject_Z_opp in H.
  assert (n == n / u * u)%Q as E by (field; lra).
  rewrite E at 2.
  assert ((inject_Z (Qceiling (n / u)) - n / u) * u < 1 * u)%Q as Hm
    by (apply Qmult_lt_compat_r; [done|unfold inject_Z in *; lra]).
  lra.
Qed.

Lemma floor_gap (u n : Q) :
  (0 < u)%Q -> (n - Math_floor (n / u) * u < u)%Q.
Proof.
  intros Hu. unfold Math_floor.
  pose proof (Qlt_floor (n / u)) as H.
  rewrite inject_Z_plus in H.
  assert (n == n / u * u)%Q as E by (field; lra).
  rewrite E at 1.
  assert ((n / u - inject_Z (Qfloor (n / u))) * u < 1 * u)%Q as Hm
    by (apply Qmult_lt_compat_r; [done|unfold inject_Z in *; lra]).
  lra.
Qed.

(** The two roundings bracket the number, each less than one rounding unit
    away from it (the unit is the multiple when it is positive, 1
    otherwise). *)
Theorem rounding_bracket (n g : Q) :
  (roundFloorToMultiple n g <= n)%Q
  /\ (n <= roundCeilToMultiple n g)%Q
  /\ (roundCeilToMultiple n g - n < rounding_unit g)%Q
  /\ (n - roundFloorToMultiple n g < rounding_unit g)%Q.
Proof.
  split; [apply roundFloorToMultiple_rounded_down|].
  split; [apply roundCeilToMultiple_rounded_up|].
  unfold rounding_unit, roundCeilToMultiple, roundFloorToMultiple, Qltb, Qleb.
  destruct (Qle_bool g 0) eqn:E; simpl.
  - split.
    + pose proof (ceil_gap 1 n) as H.
      assert (Math_ceil (n / 1) = Math_ceil n) as Hc
        by (unfold Math_ceil; f_equal; apply Qceiling_comp; field).
      rewrite Hc in H. lra.
    + pose proof (floor_gap 1 n) as H.
      assert (Math_floor (n / 1) = Math_floor n) as Hc
        by (unfold Math_floor; f_equal; apply Qfloor_comp; field).
      rewrite Hc in H. lra.
  - apply (Qleb_false g 0) in E. split; [by apply ceil_gap|by apply floor_gap].
Qed.

Lemma ceil_floor_gap (n g : Q) :
  (roundCeilToMultiple n g - n < rounding_unit g)%Q
  /\ (n - roundFloorToMultiple n g < rounding_unit g)%Q.
Proof.
  unfold rounding_unit, roundCeilToMultiple, roundFloorToMultiple, Qltb, Qleb.
  destruct (Qle_bool g 0) eqn:E; simpl.
  - split.
    + pose proof (ceil_gap 1 n) as H.
      assert (Math_ceil (n / 1) = Math_ceil n) as Hc
        by (unfold Math_ceil; f_equal; apply Qceiling_comp; field).
      rewrite Hc in H. lra.
    + pose proof (floor_gap 1 n) as H.
      assert (Math_floor (n / 1) = Math_floor n) as Hc
        by (unfold Math_floor; f_equal; apply Qfloor_comp; field).
      rewrite Hc in H. lra.
  - apply (Qleb_false g 0) in E. split; [by apply ceil_gap|by apply floor_gap].
Qed.

Lemma round_fixed (n g : Q) :
  is_multiple (rounding_unit g) n ->
  (roundCeilToMultiple n g == n)%Q /\ (roundFloorToMultiple n g == n)%Q.
Proof.
  intros Hn.
  destruct (roundCeilToMultiple_rounded_up n g) as (_ & Hge & Hleast).
  destruct (roundFloorToMultiple_rounded_down n g) as (_ & Hle & Hgreatest).
  pose proof (Hleast n Hn). pose proof (Hgreatest n Hn). split; lra.
Qed.

(** A number that is already a multiple of the rounding unit is left as it
    is by both roundings; so rounding a second time changes nothing. *)
Theorem rounding_idempotent (n g : Q) :
  (is_multiple (rounding_unit g) n ->
     (roundCeilToMultiple n g == n)%Q /\ (roundFloorToMultiple n g == n)%Q)
  /\ (roundCeilToMultiple (roundCeilToMultiple n g) g
      == roundCeilToMultiple n g)%Q
  /\ (roundFloorToMultiple (roundFloorToMultiple n g) g
      == roundFloorToMultiple n g)%Q.
Proof.
  split; [apply round_fixed|]. split.
  - apply round_fixed, roundCeilToMultiple_rounded_up.
  - apply round_fixed, roundFloorToMultiple_rounded_down.
Qed.

Lemma rounding_idempotent_witness :
  (roundCeilToMultiple (inject_Z 3100000) (inject_Z 50000)
   == inject_Z 3100000)%Q.
Proof.
  apply (proj1 (rounding_idempotent (inject_Z 3100000) (inject_Z 50000))).
  exists 62. reflexivity.
Defined.

(** ** Pricing *)

Lemma clamp_upper (v lo hi : Q) : (lo <= hi)%Q -> (clamp v lo hi <= hi)%Q.
Proof.
  intros H. unfold clamp.
  destruct (Math_min_case hi v) as [[? ->]|[? ->]]; max_cases; lra.
Qed.

Lemma clamp_id (v lo hi : Q) :
  (lo <= v)%Q -> (v <= hi)%Q -> (clamp v lo hi == v)%Q.
Proof.
  intros H1 H2. unfold clamp.
  destruct (Math_min_case hi v) as [[? ->]|[? ->]]; max_cases; lra.
Qed.

(** The derived prices stay within their bounds whatever is typed in: the
    net price is between 0 and 10^14, the balloon target between 0 and 90 %
    of the net price, the capped initial payment between 0 and the net
    price; an initial payment already in that range is not changed. *)
Theorem pricing_bounds (i : PlanInputs) :
  (0 <= netPrice i)%Q
  /\ (netPrice i <= inject_Z 100000000000000)%Q
  /\ (0 <= balloonValue i)%Q
  /\ (balloonValue i <= inject_Z 9 / inject_Z 10 * netPrice i)%Q
  /\ (0 <= cappedInitial i)%Q
  /\ (cappedInitial i <= netPrice i)%Q
  /\ ((0 <= initialPayment i)%Q -> (initialPayment i <= netPrice i)%Q ->
        (cappedInitial i == initialPayment i)%Q).
Proof.
  pose proof (netPrice_nonneg i) as Hn.
  split; [done|]. split.
  { unfold netPrice, negotiatedPrice.
    pose proof (clamp_lower (area i) 1 (inject_Z 1000000)) as Ha.
    pose proof (clamp_upper (area i) 1 (inject_Z 1000000) ltac:(by vm_compute)) as Ha'.
    pose proof (clamp_lower (pricePerM2 i) 0 (inject_Z 100000000)) as Hp.
    pose proof (clamp_upper (pricePerM2 i) 0 (inject_Z 100000000)
                  ltac:(by vm_compute))
      as Hp'.
    change (inject_Z 100000000000000)
      with (inject_Z 1000000 * inject_Z 100000000)%Q.
    apply Qmult_le_compat_nonneg; split; lra. }
  split; [apply balloonValue_nonneg|]. split.
  { unfold balloonValue.
    pose proof (clamp_upper (balloonPct i) 0 (inject_Z 90)
                  ltac:(by vm_compute)) as Hc.
    assert (netPrice i * clamp (balloonPct i) 0 (inject_Z 90)
            <= netPrice i * inject_Z 90)%Q as Hm.
    { rewrite !(Qmult_comm (netPrice i)). by apply Qmult_le_compat_r. }
    apply Qle_shift_div_r; [reflexivity|].
    eapply Qle_trans; [exact Hm|]. apply Qle_lteq. right. field. }
  split; [apply cappedInitial_nonneg|].
  assert (Math_max 0 (netPrice i) = netPrice i) as Hmax
    by (destruct (Math_max_case 0 (netPrice i)) as [[_ ->]|[? _]];
        [done|lra]).
  unfold cappedInitial. rewrite Hmax. split.
  - by apply clamp_upper.
  - intros H0 H1. by apply clamp_id.
Qed.

Lemma pricing_bounds_witness :
  (cappedInitial scenarioA == initialPayment scenarioA)%Q.
Proof.
  apply (pricing_bounds scenarioA); by vm_compute.
Defined.

Lemma discount_cases (i : PlanInputs) :
  ((clamp (pricePerM2 i) 0 (inject_Z 100000000) <= BASE_PRICE_PER_M2)%Q ->
     (netPrice i + discountAmount i == fullPrice i)%Q)
  /\ ((BASE_PRICE_PER_M2 < clamp (pricePerM2 i) 0 (inject_Z 100000000))%Q ->
        discountAmount i = 0%Q).
Proof.
  unfold discountAmount, netPrice, fullPrice, negotiatedPrice.
  pose proof (clamp_lower (area i) 1 (inject_Z 1000000)) as Ha.
  set (a := clamp (area i) 1 (inject_Z 1000000)) in *.
  set (p := clamp (pricePerM2 i) 0 (inject_Z 100000000)).
  split; intros Hp.
  - assert (a * p <= a * BASE_PRICE_PER_M2)%Q as Hm.
    { rewrite !(Qmult_comm a). apply Qmult_le_compat_r; [done|lra]. }
    max_cases; lra.
  - assert (a * BASE_PRICE_PER_M2 < a * p)%Q as Hm.
    { rewrite !(Qmult_comm a). apply Qmult_lt_compat_r; [lra|done]. }
    destruct (Math_max_case 0 (a * BASE_PRICE_PER_M2 - a * p))
      as [[? _]|[_ ->]]; [lra|done].
Qed.

(** The discount is what separates the negotiated price from the full
    price when the price per square metre (after clamping) does not exceed
    the base price of 365,000, and it is 0 when it does. *)
Theorem discount_split (i : PlanInputs) :
  ((clamp (pricePerM2 i) 0 (inject_Z 100000000) <= BASE_PRICE_PER_M2)%Q ->
     (netPrice i + discountAmount i == fullPrice i)%Q)
  /\ ((BASE_PRICE_PER_M2 < clamp (pricePerM2 i) 0 (inject_Z 100000000))%Q ->
        discountAmount i = 0%Q).
Proof. apply discount_cases. Qed.

Lemma discount_split_witness :
  (netPrice scenarioA + discountAmount scenarioA == fullPrice scenarioA)%Q.
Proof.
  apply (proj1 (discount_split scenarioA)). by vm_compute.
Defined.

(** ** The offered prices *)

Lemma options_loop_enough (fuel : nat) :
  (18 <= fuel)%nat -> options_loop fuel 365000 [] = pricePerM2Options.
Proof.
  intros H. do 18 (destruct fuel as [|fuel]; [lia|]).
  destruct fuel; reflexivity.
Qed.

Lemma In_pricePerM2Options (v : Z) :
  In v pricePerM2Options <-> exists k, 0 <= k <= 17 /\ v = 365000 - 5000 * k.
Proof.
  assert (pricePerM2Options
          = List.map (fun k => 365000 - 5000 * k) (seqZ 0 18)) as E
    by reflexivity.
  rewrite E, in_map_iff. split.
  - intros (k & <- & Hk). apply In_seqZ in Hk. exists k. split; [lia|done].
  - intros (k & Hk & ->). exists k. split; [done|]. apply In_seqZ. lia.
Qed.

(** The loop that builds the selector stops by its own test after 18
    rounds and offers the prices 365,000 - 5,000 k for k from 0 to 17; for
    a price taken from the selector, self-test 5 passes and the net price
    and the discount add up to the full price. *)
Theorem offered_price (i : PlanInputs) (v : Z) :
  (forall fuel, (18 <= fuel)%nat ->
     options_loop fuel 365000 [] = pricePerM2Options)
  /\ (In v pricePerM2Options <->
        exists k, 0 <= k <= 17 /\ v = 365000 - 5000 * k)
  /\ (In v pricePerM2Options -> (pricePerM2 i == inject_Z v)%Q ->
        ok5 i = true /\ (netPrice i + discountAmount i == fullPrice i)%Q).
Proof.
  split; [apply options_loop_enough|]. split; [apply In_pricePerM2Options|].
  intros Hv Hp. split.
  - unfold ok5. apply existsb_exists. exists v. split; [done|].
    unfold js_eq. apply Qeq_bool_iff. by symmetry.
  - apply discount_cases.
    apply In_pricePerM2Options in Hv as (k & Hk & ->).
    assert (0 <= inject_Z (365000 - 5000 * k))%Q as H0
      by (change 0%Q with (inject_Z 0); rewrite <- Zle_Qle; lia).
    assert (inject_Z (365000 - 5000 * k) <= inject_Z 365000)%Q as H1
      by (rewrite <- Zle_Qle; lia).
    assert (inject_Z (365000 - 5000 * k) <= inject_Z 100000000)%Q as H2
      by (rewrite <- Zle_Qle; lia).
    assert (clamp (pricePerM2 i) 0 (inject_Z 100000000) == pricePerM2 i)%Q
      as -> by (apply clamp_id; by rewrite Hp).
    rewrite Hp. exact H1.
Qed.

Lemma offered_price_witness :
  ok5 scenarioA = true
  /\ (netPrice scenarioA + discountAmount scenarioA == fullPrice scenarioA)%Q.
Proof.
  apply (offered_price scenarioA 350000); [|reflexivity].
  vm_compute. do 3 right. by left.
Defined.

(** ** Grouping: what a lookup returns *)

Lemma groupBy_step_lookup_exact {T} (fn : T -> Z) acc item k :
  groupBy_step fn acc item !! k
  = if bool_decide (pretty (fn item) = k)
    then Some (default [] (acc !! k) ++ [item])
    else acc !! k.
Proof.
  unfold groupBy_step. case_bool_decide as Hk.
  - subst k. destruct (acc !! pretty (fn item)) eqn:E;
      by rewrite lookup_insert_eq.
  - destruct (acc !! pretty (fn item)); by rewrite lookup_insert_ne.
Qed.

Lemma groupBy_fold_lookup_exact {T} (fn : T -> Z) arr acc k :
  fold_left (groupBy_step fn) arr acc !! k
  = match List.filter (fun x => bool_decide (pretty (fn x) = k)) arr with
    | [] => acc !! k
    | x :: l => Some (default [] (acc !! k) ++ x :: l)
    end.
Proof.
  revert acc. induction arr as [|x arr IH]; intros acc; simpl; [done|].
  rewrite IH, groupBy_step_lookup_exact.
  destruct (bool_decide (pretty (fn x) = k)); simpl.
  - destruct (List.filter _ arr); simpl; [done|]. by rewrite <- app_assoc.
  - done.
Qed.

Lemma filter_by_key {T} (fn : T -> Z) (arr : list T) (m : Z) :
  List.filter (fun x => bool_decide (pretty (fn x) = pretty m)) arr
  = List.filter (fun x => fn x =? m) arr.
Proof.
  apply List.filter_ext. intros x.
  destruct (Z.eqb_spec (fn x) m) as [->|Hne].
  - by rewrite bool_decide_eq_true_2.
  - rewrite bool_decide_eq_false_2; [done|].
    intros Heq. by apply (inj pretty) in Heq.
Qed.

(** The object built by [groupByPolyfill] has, under the numeral of [m],
    exactly the items of key [m] in input order, and no entry at all when
    there is none (a group is never empty); its own keys are exactly the
    numerals of the keys of the items; every stored group consists of items
    of the input with that key. *)
Theorem groupByPolyfill_lookup_exact {T} (fn : T -> Z) (arr : list T) :
  (forall m,
     groupByPolyfill arr fn !! pretty m
     = match List.filter (fun x => fn x =? m) arr with
       | [] => None
       | x :: l => Some (x :: l)
       end)
  /\ (forall k, is_Some (groupByPolyfill arr fn !! k)
                <-> exists x, In x arr /\ pretty (fn x) = k)
  /\ (forall k l, groupByPolyfill arr fn !! k = Some l ->
        l <> [] /\ forall x, In x l -> In x arr /\ pretty (fn x) = k).
Proof.
  split; [|split].
  - intros m. unfold groupByPolyfill.
    by rewrite groupBy_fold_lookup_exact, lookup_empty, filter_by_key.
  - intros k. unfold groupByPolyfill.
    rewrite groupBy_fold_lookup_exact, lookup_empty.
    destruct (List.filter _ arr) as [|x l'] eqn:E; split.
    + by intros [? ?].
    + intros (x & Hx & Hk).
      assert (In x (List.filter
                      (fun x => bool_decide (pretty (fn x) = k)) arr)) as H
        by (apply filter_In; split; [done|by apply bool_decide_eq_true_2]).
      by rewrite E in H.
    + intros _. exists x.
      assert (In x (List.filter
                      (fun x => bool_decide (pretty (fn x) = k)) arr)) as H
        by (rewrite E; by left).
      apply filter_In in H as [H Hk]. split; [done|].
      by apply bool_decide_eq_true_1 in Hk.
    + by eexists.
  - intros k l. unfold groupByPolyfill.
    rewrite groupBy_fold_lookup_exact, lookup_empty.
    destruct (List.filter _ arr) as [|x l'] eqn:E; [done|].
    intros [= <-]. split; [done|]. intros y Hy. rewrite <- E in Hy.
    apply filter_In in Hy as [Hy Hk]. split; [done|].
    by apply bool_decide_eq_true_1 in Hk.
Qed.

Lemma groupByPolyfill_lookup_exact_witness :
  In (mkExtra "c" 2 (inject_Z 7000000)) (validExtras crowded)
  /\ pretty (ex_month (mkExtra "c" 2 (inject_Z 7000000))) = "2".
Proof.
  apply (proj2 (proj2 (proj2 (groupByPolyfill_lookup_exact ex_month
                                (validExtras crowded)))
                  "2"
                  [mkExtra "a" 2 (inject_Z 10000000);
                   mkExtra "c" 2 (inject_Z 7000000)]
                  eq_refl)).
  right. by left.
Defined.

(** ** Sorting and filtering *)

Lemma sort_insert_head (x : Extra) (l : list Extra) :
  Forall (month_le x) l -> sort_insert by_month x l = x :: l.
Proof.
  intros H. destruct H as [|y l Hy _]; simpl; [done|].
  unfold month_le in Hy. unfold by_month.
  by assert ((ex_month x - ex_month y <=? 0) = true) as ->
    by (apply Z.leb_le; lia).
Qed.

Lemma Array_sort_sorted_id (l : list Extra) :
  StronglySorted month_le l -> Array_sort by_month l = l.
Proof.
  induction 1 as [|x l Hs IH Hall]; simpl; [done|].
  rewrite IH. by apply sort_insert_head.
Qed.

Lemma Forall_filter {T} (P : T -> Prop) (p : T -> bool) (l : list T) :
  Forall P l -> Forall P (List.filter p l).
Proof.
  induction 1 as [|x l Hx _ IH]; simpl; [constructor|].
  destruct (p x); [by constructor|done].
Qed.

Lemma filter_sort_insert (p : Extra -> bool) (x : Extra) (l : list Extra) :
  StronglySorted month_le l ->
  List.filter p (sort_insert by_month x l)
  = if p x then sort_insert by_month x (List.filter p l) else List.filter p l.
Proof.
  induction 1 as [|y l Hs IH Hall]; simpl.
  - by destruct (p x).
  - destruct (by_month x y <=? 0) eqn:E.
    + apply Z.leb_le in E. unfold by_month in E. simpl.
      destruct (p x); [|done].
      change (if p y then y :: List.filter p l else List.filter p l)
        with (List.filter p (y :: l)).
      symmetry. apply sort_insert_head, Forall_filter.
      constructor; [unfold month_le; lia|].
      eapply Forall_impl; [exact Hall|]. unfold month_le. intros; lia.
    + simpl. rewrite IH. destruct (p y), (p x); simpl; try done.
      by rewrite E.
Qed.

Lemma filter_Array_sort (p : Extra -> bool) (l : list Extra) :
  List.filter p (Array_sort by_month l) = Array_sort by_month (List.filter p l).
Proof.
  induction l as [|x l IH]; simpl; [done|].
  rewrite filter_sort_insert by apply Array_sort_sorted.
  rewrite IH. by destruct (p x).
Qed.

Lemma validExtras_sorted_valid (i : PlanInputs) :
  validExtras i
  = Array_sort by_month (List.filter (valid_entry (M i)) (extras i)).
Proof.
  unfold validExtras, orderedExtras.
  rewrite filter_Array_sort, filter_filter. f_equal.
  apply List.filter_ext. intros e. destruct (valid_entry (M i) e) eqn:E.
  - by rewrite (valid_entry_positive _ _ E).
  - apply andb_false_r.
Qed.

(** Entries that are already in month order stay as they are; sorting
    commutes with dropping entries; so normalising a normalised list
    changes nothing. *)
Theorem orderedExtras_idempotent (i : PlanInputs) :
  (forall l, StronglySorted month_le l -> Array_sort by_month l = l)
  /\ (forall p l, List.filter p (Array_sort by_month l)
                  = Array_sort by_month (List.filter p l))
  /\ orderedExtras (with_extras i (orderedExtras i)) = orderedExtras i.
Proof.
  split; [apply Array_sort_sorted_id|]. split; [apply filter_Array_sort|].
  unfold orderedExtras at 1. cbn [extras with_extras].
  rewrite filter_all.
  - apply Array_sort_sorted_id, Array_sort_sorted.
  - intros e He. apply In_orderedExtras in He as (_ & Ha & Hm).
    unfold positive_entry. apply andb_true_iff.
    split; [by apply Qltb_true|by apply Z.leb_le].
Qed.

Lemma orderedExtras_idempotent_witness :
  Array_sort by_month (orderedExtras crowded) = orderedExtras crowded.
Proof.
  apply (proj1 (orderedExtras_idempotent crowded)).
  assert (orderedExtras crowded
          = [mkExtra "b" 1 (inject_Z 5000000);
             mkExtra "a" 2 (inject_Z 10000000);
             mkExtra "c" 2 (inject_Z 7000000);
             mkExtra "d" 9 (inject_Z 7000000)]) as -> by reflexivity.
  repeat constructor; unfold month_le; simpl; lia.
Defined.

(** ** The schedule sees only the valid entries *)

Lemma schedule_of_validExtras (i j : PlanInputs) :
  area i = area j -> pricePerM2 i = pricePerM2 j -> months i = months j ->
  balloonPct i = balloonPct j -> initialPayment i = initialPayment j ->
  roundingMultiple i = roundingMultiple j ->
  validExtras i = validExtras j ->
  schedule i = schedule j /\ totals i = totals j.
Proof.
  intros Ha Hp Hm Hb Hi Hr Hv.
  assert (schedule i = schedule j) as Hs.
  { unfold schedule, month_loop, extrasByMonth, monthlyInstallment,
      adjustedBalloon, baseForMonthly, numMonthlyPayments, extrasSum,
      cappedInitial, balloonValue, netPrice, negotiatedPrice, M.
    by rewrite Ha, Hp, Hm, Hb, Hi, Hr, Hv. }
  split; [done|]. unfold totals. by rewrite Hs.
Qed.

Lemma schedule_same_valid (i : PlanInputs) (xs ys : list Extra) :
  List.filter (valid_entry (M i)) xs = List.filter (valid_entry (M i)) ys ->
  schedule (with_extras i xs) = schedule (with_extras i ys)
  /\ totals (with_extras i xs) = totals (with_extras i ys).
Proof.
  intros Hf. apply schedule_of_validExtras; try reflexivity.
  rewrite !validExtras_sorted_valid.
  change (M (with_extras i xs)) with (M i).
  change (M (with_extras i ys)) with (M i).
  cbn [extras with_extras]. by rewrite Hf.
Qed.

(** The schedule and the totals depend on the list of extraordinary
    payments only through its valid entries (positive amount, month from 1
    to [M]): two lists with the same valid entries give the same schedule,
    and an entry that is not valid can be added anywhere without effect. *)
Theorem schedule_ignores_invalid (i : PlanInputs) (xs ys : list Extra) :
  (List.filter (valid_entry (M i)) xs = List.filter (valid_entry (M i)) ys ->
     schedule (with_extras i xs) = schedule (with_extras i ys)
     /\ totals (with_extras i xs) = totals (with_extras i ys))
  /\ (forall e, valid_entry (M i) e = false ->
        schedule (with_extras i (xs ++ e :: ys))
        = schedule (with_extras i (xs ++ ys))).
Proof.
  split; [apply schedule_same_valid|].
  intros e He. apply schedule_same_valid.
  rewrite !List.filter_app. simpl. by rewrite He.
Qed.

Lemma schedule_ignores_invalid_witness :
  schedule (with_extras scenarioA [mkExtra "d" 40 (inject_Z 7000000)])
  = schedule (with_extras scenarioA []).
Proof.
  apply (proj2 (schedule_ignores_invalid scenarioA [] [])). reflexivity.
Defined.

(** ** Adding, removing and editing entries *)

Lemma with_extras_same (i : PlanInputs) : with_extras i (extras i) = i.
Proof. by destruct i. Qed.

(** A new entry, as [addExtra] appends it (month 12, amount 0), changes
    neither the schedule nor the totals. *)
Theorem addExtra_schedule (i : PlanInputs) (id : string) :
  schedule (with_extras i (addExtra id (extras i))) = schedule i
  /\ totals (with_extras i (addExtra id (extras i))) = totals i.
Proof.
  pose proof (schedule_same_valid i (addExtra id (extras i)) (extras i)) as H.
  rewrite with_extras_same in H. apply H. unfold addExtra.
  rewrite List.filter_app. simpl. apply app_nil_r.
Qed.

Lemma String_eqb_eq (a b : string) : String.eqb a b = true <-> a = b.
Proof. apply String.eqb_eq. Qed.

Lemma removeExtra_In (id : string) (xs : list Extra) (x : Extra) :
  In x (removeExtra id xs) <-> In x xs /\ ex_id x <> id.
Proof.
  unfold removeExtra. rewrite filter_In, negb_true_iff.
  rewrite <- not_true_iff_false, String_eqb_eq. tauto.
Qed.

(** [removeExtra] drops every entry with the given id and keeps the others
    in order; it undoes an [addExtra] with an id that was not in use, and
    removing twice is removing once. *)
Theorem removeExtra_spec (id : string) (xs : list Extra) :
  (forall x, In x (removeExtra id xs) <-> In x xs /\ ex_id x <> id)
  /\ removeExtra id (removeExtra id xs) = removeExtra id xs
  /\ ((forall x, In x xs -> ex_id x <> id) ->
        removeExtra id xs = xs /\ removeExtra id (addExtra id xs) = xs).
Proof.
  split; [apply removeExtra_In|]. split.
  - apply filter_all. intros x Hx. apply removeExtra_In in Hx as [_ Hx].
    apply negb_true_iff, not_true_iff_false. by rewrite String_eqb_eq.
  - intros Hfresh.
    assert (removeExtra id xs = xs) as Hxs.
    { apply filter_all. intros x Hx.
      apply negb_true_iff, not_true_iff_false. rewrite String_eqb_eq.
      by apply Hfresh. }
    split; [done|]. unfold addExtra, removeExtra in *.
    rewrite List.filter_app, Hxs. simpl.
    rewrite String.eqb_refl. simpl. apply app_nil_r.
Qed.

Lemma removeExtra_spec_witness :
  removeExtra "n" (addExtra "n" (extras crowded)) = extras crowded.
Proof.
  apply (removeExtra_spec "n" (extras crowded)).
  intros x Hx. vm_compute in Hx.
  destruct Hx as [<-|[<-|[<-|[<-|[<-|[<-|[]]]]]]]; discriminate.
Defined.



Lemma updateExtra_fresh (id : string) (patch : Patch) (xs : list Extra) :
  (forall x, In x xs -> ex_id x <> id) -> updateExtra id patch xs = xs.
Proof.
  intros Hfresh. unfold updateExtra. rewrite <- (List.map_id xs) at 2.
  apply List.map_ext_in. intros x Hx.
  destruct (String.eqb (ex_id x) id) eqn:E; [|done].
  apply String_eqb_eq in E. by apply Hfresh in Hx.
Qed.

(** Filling in a new entry: after [addExtra] with an id not in use and
    [updateExtra] of its amount to a positive value, in a plan of at least
    12 months, month 12 shows one more "extra" row, placed after the rows
    of the entries that were already on month 12, and one more valid entry
    is counted. *)
Theorem new_extra_row (i : PlanInputs) (id : string) (a : Q) :
  (forall x, In x (extras i) -> ex_id x <> id) ->
  (0 < a)%Q -> 12 <= M i ->
  let xs' := updateExtra id (mkPatch None (Some a)) (addExtra id (extras i)) in
  xs' = extras i ++ [mkExtra id 12 a]
  /\ rows_of_month (with_extras i xs') 12
     = List.map (extra_row 12) (entries_for i 12 ++ [mkExtra id 12 a])
  /\ count_valid (with_extras i xs') = count_valid i + 1.
Proof.
  intros Hfresh Ha HM xs'.
  assert (xs' = extras i ++ [mkExtra id 12 a]) as E.
  { unfold xs', addExtra, updateExtra. rewrite List.map_app.
    fold (updateExtra id (mkPatch None (Some a)) (extras i)).
    rewrite updateExtra_fresh by done. simpl.
    by rewrite String.eqb_refl. }
  apply Qltb_true in Ha.
  split; [done|]. rewrite E. split.
  - rewrite rows_of_month_spec
      by (change (M (with_extras i _)) with (M i); lia).
    assert (entries_for (with_extras i (extras i ++ [mkExtra id 12 a])) 12
            = entries_for i 12 ++ [mkExtra id 12 a]) as ->.
    { unfold entries_for. cbn [extras with_extras].
      rewrite List.filter_app. simpl. by rewrite Ha. }
    by destruct (entries_for i 12).
  - unfold count_valid. change (M (with_extras i _)) with (M i).
    cbn [extras with_extras]. rewrite List.filter_app, length_app.
    unfold valid_entry at 2. simpl. rewrite Ha.
    assert ((12 <=? M i) = true) as -> by (apply Z.leb_le; lia).
    simpl. lia.
Qed.

Lemma new_extra_row_witness :
  rows_of_month
    (with_extras scenarioA
       (updateExtra "n" (mkPatch None (Some (inject_Z 20000000)))
          (addExtra "n" (extras scenarioA)))) 12
  = List.map (extra_row 12)
      (entries_for scenarioA 12 ++ [mkExtra "n" 12 (inject_Z 20000000)]).
Proof.
  apply (new_extra_row scenarioA "n" (inject_Z 20000000)).
  - intros x [].
  - reflexivity.
  - by vm_compute.
Defined.

(** ** How far the reconciliation moves the amounts *)

Lemma reconcile_drift (balloon base : Q) (num : Z) (mult : Q) :
  0 < num -> (0 <= balloon)%Q -> (0 <= base)%Q ->
  let u := rounding_unit mult in
  let n := inject_Z num in
  let raw := (base / n)%Q in
  let inst := fst (reconcile balloon base num mult) in
  let adj := snd (reconcile balloon base num mult) in
  (raw - u < inst)%Q /\ (inst < raw + u)%Q
  /\ (balloon - n * u < adj)%Q /\ (adj < balloon + n * u)%Q
  /\ ((n * u <= balloon)%Q -> (raw <= inst)%Q /\ (adj <= balloon)%Q).
Proof.
  intros Hn Hb Hbase u n raw inst adj.
  pose proof (inject_Z_pos num Hn) as Hpos. fold n in Hpos.
  pose proof (rounding_unit_pos mult) as Hu. fold u in Hu.
  assert (base == raw * n)%Q as E by (unfold raw; field; lra).
  destruct (roundCeilToMultiple_rounded_up raw mult) as (_ & Hup1 & _).
  destruct (roundFloorToMultiple_rounded_down raw mult) as (_ & Hdn1 & _).
  pose proof (ceil_floor_gap raw mult) as [Hup2 Hdn2]. fold u in Hup2, Hdn2.
  set (up := roundCeilToMultiple raw mult) in *.
  set (fl := roundFloorToMultiple raw mult) in *.
  assert (0 <= (up - raw) * n)%Q as Hs0
    by (apply Qmult_le_0_compat; lra).
  assert ((up - raw) * n < u * n)%Q as Hs1
    by (apply Qmult_lt_compat_r; lra).
  assert (0 <= raw)%Q as Hraw by (by apply Qdiv_nonneg).
  unfold inst, adj.
  destruct (Qlt_le_dec (balloon - (up * n - base)) 0) as [Hlt|Hle].
  - rewrite (reconcile_down balloon base num mult Hn Hlt). cbn [fst snd].
    fold n raw fl.
    set (down := Math_max 0 fl).
    assert (down <= raw /\ raw - u < down)%Q as [Hd1 Hd2]
      by (unfold down; max_cases; lra).
    assert (0 <= (raw - down) * n)%Q as Ht0
      by (apply Qmult_le_0_compat; lra).
    assert ((raw - down) * n < u * n)%Q as Ht1
      by (apply Qmult_lt_compat_r; lra).
    max_cases; repeat split; try lra.
  - rewrite (reconcile_up balloon base num mult Hn Hle). cbn [fst snd].
    fold n raw up. repeat split; lra.
Qed.

(** With at least one monthly slot, rounding moves the instalment by less
    than one rounding unit from the exact share [baseForMonthly /
    numMonthlyPayments], and the balloon by less than one unit per monthly
    payment from its target; when the target covers one unit per payment
    the instalment is rounded up and the balloon only shrinks. *)
Theorem rounding_drift (i : PlanInputs) :
  0 < numMonthlyPayments i ->
  let u := rounding_unit (roundingMultiple i) in
  let n := inject_Z (numMonthlyPayments i) in
  let raw := (baseForMonthly i / n)%Q in
  (raw - u < monthlyInstallment i)%Q
  /\ (monthlyInstallment i < raw + u)%Q
  /\ (balloonValue i - n * u < adjustedBalloon i)%Q
  /\ (adjustedBalloon i < balloonValue i + n * u)%Q
  /\ ((n * u <= balloonValue i)%Q ->
        (raw <= monthlyInstallment i)%Q
        /\ (adjustedBalloon i <= balloonValue i)%Q).
Proof.
  intros Hn. unfold monthlyInstallment, adjustedBalloon.
  apply reconcile_drift;
    [done|apply balloonValue_nonneg|apply baseForMonthly_nonneg].
Qed.

Lemma rounding_drift_witness :
  (balloonValue scenarioB
   - inject_Z (numMonthlyPayments scenarioB)
     * rounding_unit (roundingMultiple scenarioB)
   < adjustedBalloon scenarioB)%Q.
Proof.
  apply (rounding_drift scenarioB). reflexivity.
Defined.

(** ** Uniform instalments and the rows of the schedule *)

Lemma monthly_rows_amount (i : PlanInputs) (r : Row) :
  In r (schedule i) -> r_type r = monthly ->
  r_amount r = monthlyInstallment i.
Proof.
  intros Hr Ht. apply In_schedule in Hr.
  by destruct Hr as [->|[(m & _ & _ & ->)|[(m & e & _ & _ & ->)| ->]]].
Qed.

Lemma In_mPays (i : PlanInputs) (v : Q) :
  In v (mPays i) -> v = monthlyInstallment i.
Proof.
  unfold mPays. intros Hv. apply in_map_iff in Hv as (r & <- & Hr).
  apply filter_In in Hr as [Hr Ht]. apply monthly_rows_amount; [done|].
  unfold has_type in Ht. by apply bool_decide_eq_true_1 in Ht.
Qed.

Lemma js_eq_refl (a : Q) : js_eq a a = true.
Proof. apply Qeq_bool_iff. reflexivity. Qed.

(** All "monthly" rows carry one and the same amount, the monthly
    instalment, whatever the inputs; self-test 3 therefore never fails. *)
Theorem uniform_instalments (i : PlanInputs) :
  (forall r1 r2, In r1 (schedule i) -> In r2 (schedule i) ->
     r_type r1 = monthly -> r_type r2 = monthly ->
     r_amount r1 = r_amount r2)
  /\ (forall r, In r (schedule i) -> r_type r = monthly ->
        r_amount r = monthlyInstallment i)
  /\ ok3 i = true.
Proof.
  split; [|split].
  - intros r1 r2 H1 H2 T1 T2.
    by rewrite (monthly_rows_amount i r1), (monthly_rows_amount i r2).
  - apply monthly_rows_amount.
  - unfold ok3. apply orb_true_iff. right. apply forallb_forall.
    intros v Hv. rewrite (In_mPays i v Hv).
    destruct (mPays i) as [|v0 l] eqn:E; [done|].
    simpl. rewrite (In_mPays i v0) by (rewrite E; by left).
    apply js_eq_refl.
Qed.

Lemma uniform_instalments_witness :
  r_amount (monthly_row 1 (monthlyInstallment scenarioB))
  = r_amount (monthly_row 36 (monthlyInstallment scenarioB)).
Proof.
  apply (proj1 (uniform_instalments scenarioB)); try reflexivity.
  - apply In_schedule. right; left. exists 1. by vm_compute.
  - apply In_schedule. right; left. exists 36. by vm_compute.
Defined.

(** *** The rows of each type, in order *)











(** *** Order and number of the rows *)












(** ** The console self-tests *)

(** Self-test 2 never fails: no "monthly" row of the schedule falls in a
    month of [orderedExtras]. *)
Theorem selftest2_never_fails (i : PlanInputs) :
  clash i = false /\ ok2 i = true.
Proof.
  assert (clash i = false) as Hc.
  { apply not_true_iff_false. intros H. unfold clash in H.
    apply existsb_exists in H as (r & Hr & H).
    apply andb_true_iff in H as [Ht Hm].
    unfold has_type in Ht. apply bool_decide_eq_true_1 in Ht.
    apply bool_decide_eq_true_1 in Hm. unfold monthsWithExtra in Hm.
    apply elem_of_list_to_set, list_elem_of_In, in_map_iff in Hm
      as (e & He & Hin).
    apply In_orderedExtras in Hin as (Hin & Ha & _).
    apply In_schedule in Hr.
    destruct Hr as [->|[(m & _ & Hfree & ->)|[(m & e' & _ & _ & ->)| ->]]];
      try discriminate Ht.
    simpl in He.
    assert (In e (entries_for i m)) as Hem.
    { unfold entries_for. apply filter_In. split; [done|].
      apply andb_true_iff. split; [by apply Qltb_true|by apply Z.eqb_eq]. }
    by rewrite Hfree in Hem. }
  split; [done|]. unfold ok2. by rewrite Hc.
Qed.

(** Self-test 4 passes whenever the rounding granularity is 0 or
    positive. *)
Theorem selftest4_passes (i : PlanInputs) :
  (0 <= roundingMultiple i)%Q -> ok4 i = true.
Proof.
  intros Hg. unfold ok4. apply orb_true_iff.
  destruct (Qlt_le_dec 0 (roundingMultiple i)) as [Hpos|Hle].
  - right. apply forallb_forall. intros r Hr.
    apply filter_In in Hr as [Hr Ht].
    unfold has_type in Ht. apply bool_decide_eq_true_1 in Ht.
    rewrite (monthly_rows_amount i r Hr Ht).
    unfold js_eq. apply Qeq_bool_iff.
    apply js_rem_multiple; [done|]. by apply reconcile_multiple.
  - left. unfold js_eq. apply Qeq_bool_iff. lra.
Qed.

Lemma selftest4_passes_witness : ok4 scenarioB = true.
Proof. apply (selftest4_passes scenarioB). by vm_compute. Defined.




Lemma BASE_PRICE_pos : (0 < BASE_PRICE_PER_M2)%Q.
Proof. reflexivity. Qed.

(** Self-test 6 passes exactly when the area is between 1 and 1,000,000
    (an area below 1, such as the 0 of an emptied field, is priced as 1);
    with the area and the price per square metre within their clamping
    ranges, self-test 7 passes too. *)
Theorem selftest_pricing (i : PlanInputs) :
  (ok6 i = true <-> (1 <= area i)%Q /\ (area i <= inject_Z 1000000)%Q)
  /\ ((1 <= area i)%Q -> (area i <= inject_Z 1000000)%Q ->
      (0 <= pricePerM2 i)%Q -> (pricePerM2 i <= inject_Z 100000000)%Q ->
      ok7 i = true).
Proof.
  split.
  - unfold ok6, js_eq, fullPrice. rewrite Qeq_bool_iff. split.
    + intros H. apply Qmult_inj_r in H; [|pose proof BASE_PRICE_pos; lra].
      rewrite <- H. split; [apply clamp_lower|].
      apply clamp_upper. by vm_compute.
    + intros [H1 H2]. by rewrite clamp_id.
  - intros H1 H2 H3 H4. unfold ok7, discountAmount, negotiatedPrice.
    assert (clamp (area i) 1 (inject_Z 1000000)
            * clamp (pricePerM2 i) 0 (inject_Z 100000000)
            == area i * pricePerM2 i)%Q as E
      by (by rewrite !clamp_id).
    apply Qleb_true. unfold Math_abs.
    match goal with |- context [Qleb 0 ?x] => destruct (Qleb 0 x) end;
      max_cases; lra.
Qed.

Lemma selftest_pricing_witness : ok6 scenarioA = true /\ ok7 scenarioA = true.
Proof.
  split.
  - apply (proj1 (selftest_pricing scenarioA)). split; by vm_compute.
  - apply (proj2 (selftest_pricing scenarioA)); by vm_compute.
Defined.

(** ** Dates: parsing, adding months, labels *)

Lemma date_of_index_year_ge (n y : Z) :
  12 * y <= n -> y <= getUTCFullYear (date_of_index n).
Proof.
  intros H. simpl. pose proof (Z.div_mod n 12).
  pose proof (Z.mod_pos_bound n 12). lia.
Qed.




Lemma addMonths_date_of_index (base : Date) (k : Z) :
  anchor_ok base -> addMonths base k = date_of_index (month_index base + k).
Proof.
  intros Hok. unfold addMonths. cbv zeta. rewrite Date_UTC_anchor by done.
  unfold setUTCMonth, month_index. f_equal. lia.
Qed.

(** Adding months to a date of a year above 99 moves its month count by
    that number; successive non-negative additions add up, and 12 months
    are one year.  For a date of a year from 0 to 99 the result lies 1900
    years later, because the date is rebuilt with [Date.UTC]. *)
Theorem addMonths_arith (base : Date) :
  (anchor_ok base -> 99 < getUTCFullYear base ->
     (forall k, month_index (addMonths base k) = month_index base + k)
     /\ (forall a b, 0 <= a ->
           addMonths (addMonths base a) b = addMonths base (a + b))
     /\ addMonths base 12
        = mkDate (getUTCFullYear base + 1) (getUTCMonth base))
  /\ (0 <= getUTCFullYear base <= 99 -> 0 <= getUTCMonth base < 12 ->
      forall k, month_index (addMonths base k)
                = month_index base + 22800 + k).
Proof.
  split.
  - intros Hok Hy. split; [intros k; by apply addMonths_index|]. split.
    + intros a b Ha.
      assert (anchor_ok (addMonths base a)) as Hok'.
      { split; [|apply addMonths_month]. right.
        rewrite addMonths_date_of_index by done.
        pose proof (date_of_index_year_ge (month_index base + a) 100) as H.
        destruct Hok as [_ Hm]. unfold month_index in *. lia. }
      rewrite (addMonths_date_of_index _ b Hok'), addMonths_index by done.
      rewrite (addMonths_date_of_index base (a + b)) by done.
      f_equal. lia.
    + rewrite addMonths_date_of_index by done.
      rewrite <- (date_of_index_month_index
                    (mkDate (getUTCFullYear base + 1) (getUTCMonth base)))
        by apply Hok.
      f_equal. unfold month_index. simpl. lia.
  - intros Hy Hm k. unfold addMonths, Date_UTC. cbv zeta.
    assert ((0 <=? getUTCFullYear base) && (getUTCFullYear base <=? 99) = true)
      as -> by (apply andb_true_iff; rewrite !Z.leb_le; lia).
    unfold setUTCMonth. rewrite month_index_date_of_index.
    pose proof (month_index_date_of_index
                  ((1900 + getUTCFullYear base) * 12 + getUTCMonth base)) as H.
    unfold month_index in *. lia.
Qed.

Lemma addMonths_arith_witness :
  addMonths january_2025 12 = mkDate 2026 0
  /\ month_index (addMonths (mkDate 50 0) 0) = month_index (mkDate 1950 0).
Proof.
  split.
  - apply (proj1 (addMonths_arith january_2025)).
    + unfold anchor_ok. simpl. lia.
    + simpl. lia.
  - apply (proj2 (addMonths_arith (mkDate 50 0))); simpl; lia.
Defined.

(** With a parsed plan start, two rows of the dated schedule carry the
    same date label exactly when their month offsets are equal: the initial
    row and the rows of month 1 share a label, and rows of different months
    from 1 on never do. *)
Theorem date_labels (i : PlanInputs) (base : Date) (d1 d2 : DatedRow) :
  anchor_ok base ->
  In d1 (scheduleWithDates i base) -> In d2 (scheduleWithDates i base) ->
  (date d1 = date d2
   <-> Z.max 0 (r_month (row d1) - 1) = Z.max 0 (r_month (row d2) - 1)).
Proof.
  intros Hok H1 H2.
  apply In_scheduleWithDates in H1 as (r1 & _ & ->).
  apply In_scheduleWithDates in H2 as (r2 & _ & ->).
  simpl. split.
  - intros Heq. apply formatMonthEs_inj in Heq; [|apply addMonths_month..].
    apply (f_equal month_index) in Heq.
    rewrite !addMonths_index in Heq by done. lia.
  - by intros ->.
Qed.

Lemma date_labels_witness :
  date (dated january_2025
          (mkRow initial "Cuota inicial" 0 (cappedInitial scenarioA)))
  = date (dated january_2025 (monthly_row 1 (monthlyInstallment scenarioA))).
Proof.
  apply (date_labels scenarioA january_2025).
  - unfold anchor_ok. simpl. lia.
  - apply In_scheduleWithDates. eexists. split; [|reflexivity].
    apply In_schedule. by left.
  - apply In_scheduleWithDates. eexists. split; [|reflexivity].
    apply In_schedule. right; left. exists 1. by vm_compute.
  - reflexivity.
Defined.

(** ** Where the total goes *)




